(** * distributed/comm/core.py: scheme registry, [connect] retry loop, [listen]

    The module is a thin layer over collaborators it does not own: the clock
    ([time()]), the per-scheme connector and listener classes, tornado's
    [gen.with_timeout] and [gen.sleep], and the logger.  [connect] is a
    coroutine with a [while True] loop, so it is embedded as an interaction
    tree: every call to a collaborator is an event whose answer the
    environment chooses, and the properties below hold for every environment.
    A Python exception is an [inl] result. *)

From Stdlib Require Import String List ZArith QArith Lia Lqa.
From stdpp Require Import base option list sorting gmap strings pretty.
From ITree Require Import ITree Eq.Shallow.
Import ListNotations.

Notation "x <- t1 ;; t2" := (ITree.bind t1 (fun x => t2))
  (at level 100, t1 at next level, right associativity) : itree_scope.
Notation "t1 ;; t2" := (ITree.bind t1 (fun _ => t2))
  (at level 100, right associativity) : itree_scope.
(** [x <-? t ;; k]: run [t]; an exception raised by [t] leaves the block. *)
Notation "x <-? t1 ;; t2" :=
  (ITree.bind t1 (fun r => match r with inl e => Ret (inl e) | inr x => t2 end))
  (at level 100, t1 at next level, right associativity) : itree_scope.
Local Open Scope itree_scope.
Local Open Scope string_scope.
Local Open Scope list_scope.

(** ** Python exceptions *)

(** The exception classes this module raises, catches or lets through; a
    class stands for its subclasses too.  [IOError] and [OSError] are
    [EnvironmentError]s (the same class in Python 3), [CommClosedError] is
    declared in core.py as a subclass of [IOError], [GenTimeoutError] is
    tornado's [gen.TimeoutError], and [OtherError] is any class outside
    these. *)
Variant pyclass : Type :=
| IOError
| OSError
| CommClosedError
| ValueError
| GenTimeoutError
| OtherError (name : string).

Record exn : Type := Raise { exn_class : pyclass; exn_str : string }.

(** [isinstance(e, EnvironmentError)]: [IOError], [OSError] and their
    subclasses. *)
Definition isinstance_EnvironmentError (e : exn) : bool :=
  match exn_class e with
  | IOError | OSError | CommClosedError => true
  | _ => false
  end.

(** [isinstance(e, gen.TimeoutError)]. *)
Definition isinstance_TimeoutError (e : exn) : bool :=
  match exn_class e with
  | GenTimeoutError => true
  | _ => false
  end.

(** ** Collaborators *)

(** What core.py imports or receives and does not define: the numbers used
    for times (seconds) with the three operations [connect] applies to them
    and the reading of a literal such as [0.01], Python's [%s] and [%r]
    formatting, the transports' object types, and
    [parse_address] from [.addressing], which returns [(scheme, loc)] or
    raises. *)
Class Platform : Type := {
  seconds : Type;
  sec_add : seconds -> seconds -> seconds;
  sec_sub : seconds -> seconds -> seconds;
  sec_ltb : seconds -> seconds -> bool;
  sec_literal : Q -> seconds;
  str_seconds : seconds -> string;
  repr_str : string -> string;
  Connector : Type;
  Future : Type;
  Comm : Type;
  ListenerClass : Type;
  Listener : Type;
  Handler : Type;
  parse_address : string -> exn + (string * string)
}.

Section Core.
Context `{Platform}.

(** Calls to collaborators, indexed by what they give back: [time()],
    [connector.connect(loc, deserialize=deserialize)],
    [gen.with_timeout(timedelta(seconds=timeout), future, ...)],
    [gen.sleep(duration)], [logger.debug(msg)],
    [listener_class(loc, handle_comm, deserialize)], [self.start()] and
    [self.stop()].  A call that can raise answers [inl] with the exception. *)
Variant commE : Type -> Type :=
| Time : commE seconds
| ConnectorConnect (connector : Connector) (loc : string) (deserialize : bool)
  : commE (exn + Future)
| WithTimeout (timeout : seconds) (future : Future) : commE (exn + Comm)
| Sleep (duration : seconds) : commE unit
| LoggerDebug (msg : string) : commE unit
| ListenerNew (cls : ListenerClass) (loc : string) (handle_comm : Handler)
    (deserialize : bool) : commE (exn + Listener)
| ListenerStart (self : Listener) : commE (exn + unit)
| ListenerStop (self : Listener) : commE (exn + unit).

(** One completed call: the request and the answer it got. *)
Inductive call : Type :=
| CallTime (now : seconds)
| CallConnect (connector : Connector) (loc : string) (deserialize : bool)
    (ans : exn + Future)
| CallWithTimeout (timeout : seconds) (future : Future) (ans : exn + Comm)
| CallSleep (duration : seconds)
| CallLoggerDebug (msg : string)
| CallListenerNew (cls : ListenerClass) (loc : string) (handle_comm : Handler)
    (deserialize : bool) (ans : exn + Listener)
| CallListenerStart (self : Listener) (ans : exn + unit)
| CallListenerStop (self : Listener) (ans : exn + unit).

Definition answered {X : Type} (e : commE X) : X -> call :=
  match e in commE X return X -> call with
  | Time => CallTime
  | ConnectorConnect c loc d => CallConnect c loc d
  | WithTimeout s f => CallWithTimeout s f
  | Sleep s => fun _ => CallSleep s
  | LoggerDebug m => fun _ => CallLoggerDebug m
  | ListenerNew cls loc h d => CallListenerNew cls loc h d
  | ListenerStart l => CallListenerStart l
  | ListenerStop l => CallListenerStop l
  end.

(** [runs t tr r]: some environment answers the calls of [t] as listed in
    [tr], and [t] then finishes with [r]. *)
Inductive runs {R : Type} (t : itree commE R) : list call -> R -> Prop :=
| runs_Ret r :
    observe t = RetF r -> runs t [] r
| runs_Tau u tr r :
    observe t = TauF u -> runs u tr r -> runs t tr r
| runs_Vis X (e : commE X) k x tr r :
    observe t = VisF e k -> runs (k x) tr r -> runs t (answered e x :: tr) r.

(** A scripted environment: the answers it will give, in order. *)
Variant answer : Type :=
| AnsTime (now : seconds)
| AnsFuture (ans : exn + Future)
| AnsComm (ans : exn + Comm)
| AnsListener (ans : exn + Listener)
| AnsDone (ans : exn + unit)
| AnsUnit.

Definition accept {X : Type} (e : commE X) (a : answer) : option X :=
  match e in commE X return option X with
  | Time => match a with AnsTime t => Some t | _ => None end
  | ConnectorConnect _ _ _ => match a with AnsFuture x => Some x | _ => None end
  | WithTimeout _ _ => match a with AnsComm x => Some x | _ => None end
  | Sleep _ | LoggerDebug _ => match a with AnsUnit => Some tt | _ => None end
  | ListenerNew _ _ _ _ => match a with AnsListener x => Some x | _ => None end
  | ListenerStart _ | ListenerStop _ =>
      match a with AnsDone x => Some x | _ => None end
  end.

(** Run [t] against a script for at most [fuel] steps. *)
Fixpoint exec {R : Type} (fuel : nat) (t : itree commE R) (script : list answer)
  : option (list call * R) :=
  match fuel with
  | O => None
  | S fuel =>
      match observe t with
      | RetF r => Some ([], r)
      | TauF u => exec fuel u script
      | VisF e k =>
          match script with
          | [] => None
          | a :: script =>
              match accept e a with
              | None => None
              | Some x =>
                  match exec fuel (k x) script with
                  | Some (tr, r) => Some (answered e x :: tr, r)
                  | None => None
                  end
              end
          end
      end
  end.

(** ** The registries *)

(** [connectors] and [listeners] are module-level dicts keyed by scheme. *)
Context (connectors : gmap string Connector).
Context (listeners : gmap string ListenerClass).

(** ** connect *)

Section Connect.
Context (addr : string) (timeout : seconds) (deserialize : bool).

(** The nested function [_raise(error)] of [connect].  [error or "..."]
    takes the default for [None] and for the empty string. *)
Definition _raise (error : option string) : exn :=
  let error :=
    match error with
    | Some "" | None => "connect() didn't finish in time"
    | Some s => s
    end in
  let msg := "Timed out trying to connect to " +:+ repr_str addr +:+ " after "
             +:+ str_seconds timeout +:+ " s: " +:+ error in
  Raise IOError msg.

Context (connector : Connector) (loc : string) (deadline : seconds).

(** The [try:] block of the loop: one connection attempt, waited for no
    longer than what is left until [deadline].  [quiet_exceptions] only
    affects tornado's logging. *)
Definition attempt_try : itree commE (exn + Comm) :=
  future <-? ITree.trigger (ConnectorConnect connector loc deserialize) ;;
  now <- ITree.trigger Time ;;
  ITree.trigger (WithTimeout (sec_sub deadline now) future).

(** The [except EnvironmentError], [except gen.TimeoutError] and [else]
    clauses, tried in that order.  [inl error] goes round the loop again with
    the updated [error]; [inr] leaves [connect] ([break] followed by
    [raise gen.Return(comm)], or an exception). *)
Definition attempt_except (error : option string) (outcome : exn + Comm)
  : itree commE (option string + (exn + Comm)) :=
  match outcome with
  | inl e =>
      if isinstance_EnvironmentError e then
        let error := Some (exn_str e) in
        now <- ITree.trigger Time ;;
        if sec_ltb now deadline then
          ITree.trigger (Sleep (sec_literal 0.01)) ;;
          ITree.trigger (LoggerDebug "sleeping on connect") ;;
          Ret (inl error)
        else Ret (inr (inl (_raise error)))
      else if isinstance_TimeoutError e then
        Ret (inr (inl (_raise error)))
      else Ret (inr (inl e))
  | inr comm => Ret (inr (inr comm))
  end.

(** One pass through the body of [while True]. *)
Definition attempt (error : option string)
  : itree commE (option string + (exn + Comm)) :=
  outcome <- attempt_try ;;
  attempt_except error outcome.

Definition retry_loop : option string -> itree commE (exn + Comm) :=
  ITree.iter attempt.

End Connect.

Definition connect (addr : string) (timeout : seconds) (deserialize : bool)
  : itree commE (exn + Comm) :=
  match parse_address addr with
  | inl e => Ret (inl e)
  | inr (scheme, loc) =>
      match connectors !! scheme with
      | None =>
          Ret (inl (Raise ValueError
                      ("unknown scheme " +:+ repr_str scheme +:+ " in address "
                       +:+ repr_str addr)))
      | Some connector =>
          start <- ITree.trigger Time ;;
          let deadline := sec_add start timeout in
          retry_loop addr timeout deserialize connector loc deadline None
      end
  end.

(** ** listen *)

Definition listen (addr : string) (handle_comm : Handler) (deserialize : bool)
  : itree commE (exn + Listener) :=
  match parse_address addr with
  | inl e => Ret (inl e)
  | inr (scheme, loc) =>
      match listeners !! scheme with
      | None =>
          Ret (inl (Raise ValueError
                      ("unknown scheme " +:+ repr_str scheme +:+ " in address "
                       +:+ repr_str addr)))
      | Some listener_class =>
          ITree.trigger (ListenerNew listener_class loc handle_comm deserialize)
      end
  end.

(** ** Listener as a context manager *)

Definition __enter__ (self : Listener) : itree commE (exn + Listener) :=
  _ <-? ITree.trigger (ListenerStart self) ;;
  Ret (inr self).

(** [__exit__(self, *exc)] ignores [exc] and returns [None], which is not
    true: a pending exception is not suppressed. *)
Definition __exit__ (self : Listener) (exc : option exn)
  : itree commE (exn + bool) :=
  _ <-? ITree.trigger (ListenerStop self) ;;
  Ret (inr false).

(** Python's [with mgr as value: block] (PEP 343) for a Listener.  [__exit__]
    is called once the block was entered, with the exception the block raised
    if any; that exception is re-raised unless [__exit__] returned true. *)
Definition with_listener (mgr : Listener)
    (block : Listener -> itree commE (exn + unit)) : itree commE (exn + unit) :=
  value <-? __enter__ mgr ;;
  outcome <- block value ;;
  match outcome with
  | inr tt => _ <-? __exit__ mgr None ;; Ret (inr tt)
  | inl e =>
      suppress <-? __exit__ mgr (Some e) ;;
      if (suppress : bool) then Ret (inr tt) else Ret (inl e)
  end.

(** ** Reading a trace *)

(** The exception with which a connection attempt ended, when the call is
    [connector.connect] or [gen.with_timeout] and it raised. *)
Definition raised (c : call) : option exn :=
  match c with
  | CallConnect _ _ _ (inl e) | CallWithTimeout _ _ (inl e) => Some e
  | _ => None
  end.

(** Its text, when the exception is of the class the loop retries on. *)
Definition transient (c : call) : option string :=
  match raised c with
  | Some e => if isinstance_EnvironmentError e then Some (exn_str e) else None
  | None => None
  end.

(** The readings of the clock, and the time bounds of the attempts. *)
Definition clock_reading (c : call) : option seconds :=
  match c with
  | CallTime now => Some now
  | _ => None
  end.

Definition attempt_bound (c : call) : option seconds :=
  match c with
  | CallWithTimeout bound _ _ => Some bound
  | _ => None
  end.

(** The value of the loop variable [error] after the calls of [tr], when it
    was [error] before them. *)
Definition last_error (error : option string) (tr : list call) : option string :=
  match last (omap transient tr) with
  | Some s => Some s
  | None => error
  end.

Definition is_sleep (c : call) : bool :=
  match c with
  | CallSleep _ => true
  | _ => false
  end.

End Core.

Arguments commE {_}.
Arguments call {_}.
Arguments answer {_}.

(** ** A concrete platform

    Times are whole milliseconds, transports' objects are numbered. *)
Module Example.

(** Modelled from the spec: [parse_address] lives in [.addressing], which
    is not part of this module.  An address has the form
    [scheme://location]; anything else is a parse error. *)
Definition parse (uri : string) : exn + (string * string) :=
  match String.index 0 "://" uri with
  | Some n =>
      inr (String.substring 0 n uri,
           String.substring (n + 3) (String.length uri - (n + 3)) uri)
  | None => inl (Raise ValueError ("invalid address " +:+ uri))
  end.

Definition platform : Platform := {|
  seconds := Z;
  sec_add := Z.add;
  sec_sub := Z.sub;
  sec_ltb := Z.ltb;
  sec_literal := fun q => (Qnum q * 1000 / Zpos (Qden q))%Z;
  str_seconds := fun ms => pretty ms +:+ "e-3";
  repr_str := fun s => "'" +:+ s +:+ "'";
  Connector := nat;
  Future := nat;
  Comm := nat;
  ListenerClass := nat;
  Listener := nat;
  Handler := nat;
  parse_address := parse
|}.

#[local] Existing Instance platform.

Definition connectors : gmap string Connector :=
  {[ "tcp" := 1%nat; "inproc" := 2%nat ]}.
Definition listeners : gmap string ListenerClass := {[ "tcp" := 7%nat ]}.

Definition addr : string := "tcp://10.0.0.7:8786".
Definition loc : string := "10.0.0.7:8786".
Definition refused : exn := Raise OSError "[Errno 111] Connection refused".
Definition timed_out : exn := Raise GenTimeoutError "Timeout".

(** Refused once, then connected: timeout 3 s. *)
Definition retry_run : list call :=
  [CallTime 0%Z;
   CallConnect 1%nat loc true (inl refused);
   CallTime 5%Z;
   CallSleep 10%Z;
   CallLoggerDebug "sleeping on connect";
   CallConnect 1%nat loc true (inr 4%nat);
   CallTime 20%Z;
   CallWithTimeout 2980%Z 4%nat (inr 9%nat)].

(** A wait that fails, then one that succeeds: timeout 3 s. *)
Definition two_waits_run : list call :=
  [CallTime 0%Z;
   CallConnect 1%nat loc true (inr 4%nat);
   CallTime 1%Z;
   CallWithTimeout 2999%Z 4%nat (inl refused);
   CallTime 6%Z;
   CallSleep 10%Z;
   CallLoggerDebug "sleeping on connect";
   CallConnect 1%nat loc true (inr 5%nat);
   CallTime 17%Z;
   CallWithTimeout 2983%Z 5%nat (inr 9%nat)].

(** Refused, and the deadline has passed: timeout 50 ms, or negative. *)
Definition late_run : list call :=
  [CallTime 0%Z;
   CallConnect 1%nat loc true (inl refused);
   CallTime 60%Z].

(** The first wait runs into its bound: timeout 3 s. *)
Definition timeout_run : list call :=
  [CallTime 0%Z;
   CallConnect 1%nat loc true (inr 4%nat);
   CallTime 1%Z;
   CallWithTimeout 2999%Z 4%nat (inl timed_out)].



(** Refused twice, then connected: timeout 3 s. *)
Definition two_sleeps_run : list call :=
  [CallTime 0%Z;
   CallConnect 1%nat loc true (inl refused);
   CallTime 2%Z;
   CallSleep 10%Z;
   CallLoggerDebug "sleeping on connect";
   CallConnect 1%nat loc true (inl refused);
   CallTime 14%Z;
   CallSleep 10%Z;
   CallLoggerDebug "sleeping on connect";
   CallConnect 1%nat loc true (inr 4%nat);
   CallTime 26%Z;
   CallWithTimeout 2974%Z 4%nat (inr 9%nat)].

Definition two_sleeps_script : list answer :=
  [AnsTime 0%Z; AnsFuture (inl refused); AnsTime 2%Z; AnsUnit; AnsUnit;
   AnsFuture (inl refused); AnsTime 14%Z; AnsUnit; AnsUnit;
   AnsFuture (inr 4%nat); AnsTime 26%Z; AnsComm (inr 9%nat)].

(** Refused once, then the wait runs into its bound: timeout 3 s. *)
Definition refused_then_timeout_run : list call :=
  [CallTime 0%Z;
   CallConnect 1%nat loc true (inl refused);
   CallTime 5%Z;
   CallSleep 10%Z;
   CallLoggerDebug "sleeping on connect";
   CallConnect 1%nat loc true (inr 4%nat);
   CallTime 20%Z;
   CallWithTimeout 2980%Z 4%nat (inl timed_out)].

End Example.

(** * Runs of interaction trees *)

Section Runs.
Context `{Platform}.

Lemma runs_observe {R} (t u : itree commE R) tr r :
  observe t = observe u -> runs t tr r -> runs u tr r.
Proof.
  intros Heq Hr. destruct Hr as [r Ho | v tr r Ho Hv | X e k x tr r Ho Hk].
  - apply runs_Ret. congruence.
  - eapply runs_Tau; [|exact Hv]. congruence.
  - eapply runs_Vis; [|exact Hk]. congruence.
Qed.

Lemma runs_Ret_inv {R} (t : itree commE R) r0 tr r :
  observe t = RetF r0 -> runs t tr r -> tr = [] /\ r = r0.
Proof.
  intros Ht Hr. destruct Hr as [r Ho | v tr r Ho Hv | X e k x tr r Ho Hk];
    rewrite Ht in Ho; try discriminate.
  injection Ho as ->. auto.
Qed.

Lemma runs_Tau_inv {R} (t u : itree commE R) tr r :
  observe t = TauF u -> runs t tr r -> runs u tr r.
Proof.
  intros Ht Hr. destruct Hr as [r Ho | v tr r Ho Hv | X e k x tr r Ho Hk];
    rewrite Ht in Ho; try discriminate.
  injection Ho as ->. exact Hv.
Qed.

Lemma runs_Vis_inv {R X} (t : itree commE R) (e : commE X) k tr r :
  observe t = VisF e k -> runs t tr r ->
  exists x tr', tr = answered e x :: tr' /\ runs (k x) tr' r.
Proof.
  intros Ht Hr. destruct Hr as [r Ho | v tr r Ho Hv | Y e' k' x tr r Ho Hk];
    rewrite Ht in Ho; try discriminate.
  revert x Hk.
  refine (match Ho in _ = u
                return match u with
                       | VisF e0 k0 =>
                           forall x, runs (k0 x) tr r ->
                                     exists x0 tr', answered e0 x :: tr = answered e x0 :: tr'
                                                    /\ runs (k x0) tr' r
                       | _ => True
                       end
          with eq_refl => _ end).
  eauto.
Qed.

Lemma runs_bind {A R} (t : itree commE A) (k : A -> itree commE R) tr1 a tr2 r :
  runs t tr1 a -> runs (k a) tr2 r -> runs (ITree.bind t k) (tr1 ++ tr2) r.
Proof.
  intros Ht Hk. induction Ht as [t a Ho | t u tr a Ho Hu IH | t X e h x tr a Ho Hh IH].
  - eapply runs_observe; [|exact Hk].
    rewrite observe_bind, Ho. reflexivity.
  - eapply runs_Tau; [|exact (IH Hk)].
    rewrite observe_bind, Ho. reflexivity.
  - cbn [app]. eapply runs_Vis with (k := fun x => ITree.bind (h x) k); [|exact (IH Hk)].
    rewrite observe_bind, Ho. reflexivity.
Qed.

Lemma runs_bind_inv {A R} (t : itree commE A) (k : A -> itree commE R) tr r :
  runs (ITree.bind t k) tr r ->
  exists tr1 a tr2, runs t tr1 a /\ runs (k a) tr2 r /\ tr = tr1 ++ tr2.
Proof.
  intros Hr. remember (ITree.bind t k) as u eqn:Hu. revert t Hu.
  induction Hr as [u r Ho | u v tr r Ho Hv IH | u X e h x tr r Ho Hh IH];
    intros t ->; rewrite observe_bind in Ho;
    destruct (observe t) as [a | t' | Y e' h'] eqn:Ht; cbn in Ho.
  - exists [], a, []. repeat split; [by apply runs_Ret | by apply runs_Ret].
  - discriminate.
  - discriminate.
  - exists [], a, tr. repeat split; [by apply runs_Ret | by eapply runs_Tau].
  - injection Ho as <-.
    destruct (IH t' eq_refl) as (tr1 & a & tr2 & H1 & H2 & ->).
    exists tr1, a, tr2. repeat split; [by eapply runs_Tau | done].
  - discriminate.
  - exists [], a, (answered e x :: tr).
    repeat split; [by apply runs_Ret | by eapply runs_Vis].
  - discriminate.
  - revert x Hh IH.
    refine (match Ho in _ = w
                  return match w with
                         | VisF e0 h0 =>
                             forall x, runs (h0 x) tr r ->
                               (forall t0, h0 x = ITree.bind t0 k ->
                                  exists tr1 a tr2, runs t0 tr1 a /\ runs (k a) tr2 r
                                                    /\ tr = tr1 ++ tr2) ->
                               exists tr1 a tr2, runs t tr1 a /\ runs (k a) tr2 r
                                                 /\ answered e0 x :: tr = tr1 ++ tr2
                         | _ => True
                         end
            with eq_refl => _ end).
    intros x _ IH. destruct (IH (h' x) eq_refl) as (tr1 & a & tr2 & H1 & H2 & ->).
    exists (answered e' x :: tr1), a, tr2. repeat split; [by eapply runs_Vis | done].
Qed.

(** A loop finishes with its last pass, or makes one pass and goes on. *)
Lemma runs_iter_exit {I R} (body : I -> itree commE (I + R)) i tr r :
  runs (body i) tr (inr r) -> runs (ITree.iter body i) tr r.
Proof.
  intros Hb. rewrite <- (app_nil_r tr).
  eapply runs_observe; [symmetry; apply (observing_observe (unfold_aloop_ body i))|].
  eapply runs_bind; [exact Hb|]. by apply runs_Ret.
Qed.

Lemma runs_iter_again {I R} (body : I -> itree commE (I + R)) i tr1 i' tr2 r :
  runs (body i) tr1 (inl i') -> runs (ITree.iter body i') tr2 r ->
  runs (ITree.iter body i) (tr1 ++ tr2) r.
Proof.
  intros Hb Hl.
  eapply runs_observe; [symmetry; apply (observing_observe (unfold_aloop_ body i))|].
  eapply runs_bind; [exact Hb|]. by eapply runs_Tau.
Qed.

(** Induction on the passes of a loop. *)
Lemma runs_iter_ind {I R} (body : I -> itree commE (I + R))
    (P : I -> list call -> R -> Prop) :
  (forall i tr r, runs (body i) tr (inr r) -> P i tr r) ->
  (forall i tr1 i' tr2 r,
      runs (body i) tr1 (inl i') -> runs (ITree.iter body i') tr2 r ->
      P i' tr2 r -> P i (tr1 ++ tr2) r) ->
  forall i tr r, runs (ITree.iter body i) tr r -> P i tr r.
Proof.
  intros Hexit Hagain.
  pose (K := fun lr : I + R =>
               match lr with
               | inl l => Tau (ITree.iter body l)
               | inr r => Ret r
               end : itree commE R).
  assert (Hpass : forall u tr r, runs u tr r ->
            forall t, observe u = observe (ITree.bind t K) ->
            (exists r', runs t tr (inr r') /\ r = r') \/
            (exists tr1 i' tr2, runs t tr1 (inl i') /\ tr = tr1 ++ tr2 /\
                                runs (ITree.iter body i') tr2 r /\ P i' tr2 r)).
  { intros u tr r Hr.
    induction Hr as [u r Ho | u v tr r Ho Hv IH | u X e h x tr r Ho Hh IH];
      intros t Hu; rewrite Hu, observe_bind in Ho;
      destruct (observe t) as [[i'|r'] | t' | Y e' h'] eqn:Ht; cbn in Ho;
      try discriminate.
    - injection Ho as ->. left. exists r. split; [by apply runs_Ret | done].
    - injection Ho as <-. right. exists [], i', tr.
      repeat split; [by apply runs_Ret | done |].
      assert (Hobs : observe (ITree.iter body i') = observe (ITree.bind (body i') K))
        by apply (observing_observe (unfold_aloop_ body i')).
      destruct (IH (body i') Hobs) as [(r' & Hb & ->) | (tr1 & j & tr2 & Hb & -> & Hl & HP)].
      + by apply Hexit.
      + by eapply Hagain.
    - injection Ho as <-.
      destruct (IH t' eq_refl) as [(r' & Hb & ->) | (tr1 & j & tr2 & Hb & -> & Hl & HP)].
      + left. exists r'. split; [by eapply runs_Tau | done].
      + right. exists tr1, j, tr2. repeat split; [by eapply runs_Tau | done..].
    - revert x Hh IH.
      refine (match Ho in _ = w
                    return match w with
                           | VisF e0 h0 =>
                               forall x, runs (h0 x) tr r ->
                                 (forall t0, observe (h0 x) = observe (ITree.bind t0 K) -> _) ->
                                 (exists r', runs t (answered e0 x :: tr) (inr r') /\ r = r') \/
                                 (exists tr1 i' tr2,
                                     runs t tr1 (inl i') /\ answered e0 x :: tr = tr1 ++ tr2 /\
                                     runs (ITree.iter body i') tr2 r /\ P i' tr2 r)
                           | _ => True
                           end
              with eq_refl => _ end).
      intros x _ IH.
      destruct (IH (h' x) eq_refl) as [(r' & Hb & ->) | (tr1 & j & tr2 & Hb & -> & Hl & HP)].
      + left. exists r'. split; [by eapply runs_Vis | done].
      + right. exists (answered e' x :: tr1), j, tr2.
        repeat split; [by eapply runs_Vis | done..]. }
  intros i tr r Hr.
  destruct (Hpass _ _ _ Hr (body i) (observing_observe (unfold_aloop_ body i)))
    as [(r' & Hb & ->) | (tr1 & j & tr2 & Hb & -> & Hl & HP)].
  - by apply Hexit.
  - by eapply Hagain.
Qed.

Lemma runs_ret {R} (a : R) tr r :
  runs (Ret a : itree commE R) tr r <-> tr = [] /\ r = a.
Proof.
  split.
  - by apply runs_Ret_inv.
  - intros [-> ->]. by apply runs_Ret.
Qed.

Lemma runs_trigger_bind {X R} (e : commE X) (k : X -> itree commE R) tr r :
  runs (ITree.bind (ITree.trigger e) k) tr r <->
  exists x tr', tr = answered e x :: tr' /\ runs (k x) tr' r.
Proof.
  split.
  - intros Hr.
    apply (runs_Vis_inv _ e (fun x => ITree.bind (Ret x) k)) in Hr
      as (x & tr' & -> & Hk); [|reflexivity].
    exists x, tr'. split; [done|]. by eapply runs_observe; [|exact Hk].
  - intros (x & tr' & -> & Hk).
    eapply runs_Vis with (k := fun x => ITree.bind (Ret x) k); [reflexivity|].
    by eapply runs_observe; [|exact Hk].
Qed.

Lemma runs_trigger {X} (e : commE X) tr r :
  runs (ITree.trigger e) tr r <-> tr = [answered e r].
Proof.
  split.
  - intros Hr.
    apply (runs_Vis_inv _ e (fun x => Ret x)) in Hr as (x & tr' & -> & Hk);
      [|reflexivity].
    apply runs_ret in Hk as [-> ->]. done.
  - intros ->. eapply runs_Vis; [reflexivity|]. by apply runs_Ret.
Qed.

(** Every scripted execution is a run. *)
Lemma exec_runs {R} fuel (t : itree commE R) script tr r :
  exec fuel t script = Some (tr, r) -> runs t tr r.
Proof.
  revert t script tr r. induction fuel as [|fuel IH]; intros t script tr r; [done|].
  cbn [exec]. destruct (observe t) as [r0 | u | X e k] eqn:Ho.
  - intros [= <- <-]. by apply runs_Ret.
  - intros Hx. eapply runs_Tau; [exact Ho | by eapply IH].
  - destruct script as [|a script]; [done|].
    destruct (accept e a) as [x|]; [|done].
    destruct (exec fuel (k x) script) as [[tr' r']|] eqn:Hx; [|done].
    intros [= <- <-]. eapply runs_Vis; [exact Ho | by eapply IH].
Qed.

End Runs.

(** * The connection attempt and the retry loop *)

Section ConnectFacts.
Context `{Platform} (connectors : gmap string Connector).
Context (addr : string) (timeout : seconds) (deserialize : bool).
Context (connector : Connector) (loc : string) (deadline : seconds).

Local Abbreviation attempt_try := (attempt_try deserialize connector loc deadline).
Local Abbreviation attempt_except := (attempt_except addr timeout deadline).
Local Abbreviation attempt := (attempt addr timeout deserialize connector loc deadline).
Local Abbreviation retry_loop := (retry_loop addr timeout deserialize connector loc deadline).
Local Abbreviation _raise := (_raise addr timeout).

(** The calls of a [try:] block and how it ended. *)
Inductive tried : list call -> exn + Comm -> Prop :=
| tried_refused e :
    tried [CallConnect connector loc deserialize (inl e)] (inl e)
| tried_waited future now outcome :
    tried [CallConnect connector loc deserialize (inr future);
           CallTime now;
           CallWithTimeout (sec_sub deadline now) future outcome] outcome.

(** The calls of the clause that handles the outcome, and where it leads. *)
Inductive handled (error : option string)
  : exn + Comm -> list call -> option string + (exn + Comm) -> Prop :=
| handled_break comm :
    handled error (inr comm) [] (inr (inr comm))
| handled_sleep e now :
    isinstance_EnvironmentError e = true -> sec_ltb now deadline = true ->
    handled error (inl e)
      [CallTime now; CallSleep (sec_literal 0.01); CallLoggerDebug "sleeping on connect"]
      (inl (Some (exn_str e)))
| handled_late e now :
    isinstance_EnvironmentError e = true -> sec_ltb now deadline = false ->
    handled error (inl e) [CallTime now] (inr (inl (_raise (Some (exn_str e)))))
| handled_timeout e :
    isinstance_EnvironmentError e = false -> isinstance_TimeoutError e = true ->
    handled error (inl e) [] (inr (inl (_raise error)))
| handled_other e :
    isinstance_EnvironmentError e = false -> isinstance_TimeoutError e = false ->
    handled error (inl e) [] (inr (inl e)).

Lemma runs_attempt_try tr outcome :
  runs attempt_try tr outcome <-> tried tr outcome.
Proof.
  unfold attempt_try. rewrite runs_trigger_bind. split.
  - intros ([e|future] & tr' & -> & Hr).
    + apply runs_ret in Hr as [-> ->]. constructor.
    + apply runs_trigger_bind in Hr as (now & tr2 & -> & Hr).
      apply runs_trigger in Hr as ->. constructor.
  - intros [e | future now o]; eexists _, _; (split; [reflexivity|]).
    + by apply runs_ret.
    + apply runs_trigger_bind. eexists _, _. split; [reflexivity|].
      by apply runs_trigger.
Qed.

Lemma runs_attempt_except error outcome tr next :
  runs (attempt_except error outcome) tr next <-> handled error outcome tr next.
Proof.
  unfold attempt_except. split.
  - destruct outcome as [e|comm].
    + destruct (isinstance_EnvironmentError e) eqn:Henv;
        [|destruct (isinstance_TimeoutError e) eqn:Hto].
      * intros (now & tr' & -> & Hr)%runs_trigger_bind.
        destruct (sec_ltb now deadline) eqn:Hlt.
        -- apply runs_trigger_bind in Hr as ([] & tr2 & -> & Hr).
           apply runs_trigger_bind in Hr as ([] & tr3 & -> & Hr).
           apply runs_ret in Hr as [-> ->]. by constructor.
        -- apply runs_ret in Hr as [-> ->]. by constructor.
      * intros [-> ->]%runs_ret. by constructor.
      * intros [-> ->]%runs_ret. by constructor.
    + intros [-> ->]%runs_ret. constructor.
  - intros [comm | e now Henv Hlt | e now Henv Hlt | e Henv Hto | e Henv Hto];
      rewrite ?Henv, ?Hto.
    + by apply runs_ret.
    + apply runs_trigger_bind. eexists now, _. split; [reflexivity|]. rewrite Hlt.
      apply runs_trigger_bind. eexists tt, _. split; [reflexivity|].
      apply runs_trigger_bind. eexists tt, _. split; [reflexivity|].
      by apply runs_ret.
    + apply runs_trigger_bind. eexists now, _. split; [reflexivity|]. rewrite Hlt.
      by apply runs_ret.
    + by apply runs_ret.
    + by apply runs_ret.
Qed.

Lemma runs_attempt error tr next :
  runs (attempt error) tr next <->
  exists tr1 outcome tr2,
    tried tr1 outcome /\ handled error outcome tr2 next /\ tr = tr1 ++ tr2.
Proof.
  unfold attempt. split.
  - intros (tr1 & outcome & tr2 & H1 & H2 & ->)%runs_bind_inv.
    exists tr1, outcome, tr2. by rewrite <- runs_attempt_try, <- runs_attempt_except.
  - intros (tr1 & outcome & tr2 & H1 & H2 & ->).
    eapply runs_bind; [by apply runs_attempt_try | by apply runs_attempt_except].
Qed.

(** What comes after a connection attempt that raised [e], when the loop
    variable held [error]. *)
Definition after_raise (error : option string) (e : exn) (post : list call)
    (r : exn + Comm) : Prop :=
  if isinstance_EnvironmentError e then
    exists now post',
      post = CallTime now :: post' /\
      if sec_ltb now deadline then
        exists rest,
          post' = CallSleep (sec_literal 0.01) :: CallLoggerDebug "sleeping on connect" :: rest /\
          runs (retry_loop (Some (exn_str e))) rest r
      else post' = [] /\ r = inl (_raise (Some (exn_str e)))
  else if isinstance_TimeoutError e then
    post = [] /\ r = inl (_raise error)
  else post = [] /\ r = inl e.

(** What surrounds the call [c] in a run [pre ++ c :: post] of the loop. *)
Definition follows (error : option string) (pre : list call) (c : call)
    (post : list call) (r : exn + Comm) : Prop :=
  match c with
  | CallConnect c0 l d ans =>
      (c0 = connector /\ l = loc /\ d = deserialize) /\
      match ans with
      | inl e => after_raise (last_error error pre) e post r
      | inr future =>
          exists now outcome post',
            post = CallTime now
                   :: CallWithTimeout (sec_sub deadline now) future outcome :: post'
      end
  | CallWithTimeout b f outcome =>
      (exists pre' now,
          pre = pre' ++ [CallConnect connector loc deserialize (inr f); CallTime now] /\
          b = sec_sub deadline now) /\
      match outcome with
      | inl e => after_raise (last_error error pre) e post r
      | inr comm => post = [] /\ r = inr comm
      end
  | _ => True
  end.

Lemma last_error_app error tr1 tr2 :
  last_error error (tr1 ++ tr2) = last_error (last_error error tr1) tr2.
Proof.
  unfold last_error. rewrite omap_app, last_app.
  by destruct (last (omap transient tr2)).
Qed.

Lemma follows_later error tr1 pre c post r :
  follows (last_error error tr1) pre c post r ->
  follows error (tr1 ++ pre) c post r.
Proof.
  destruct c as [| c0 l d [e|future] | b f [e|comm] | | | | |]; cbn;
    rewrite ?last_error_app; try done.
  - intros [(pre' & now & -> & ->) Hafter]. split; [|done].
    exists (tr1 ++ pre'), now. by rewrite (assoc_L (++)).
  - intros [(pre' & now & -> & ->) Hafter]. split; [|done].
    exists (tr1 ++ pre'), now. by rewrite (assoc_L (++)).
Qed.

(** A pass that goes round again ended on a retried error, slept, and left
    that error's text in [error]. *)
Lemma attempt_again error tr next :
  runs (attempt error) tr (inl next) ->
  exists tr1 e now,
    tried tr1 (inl e) /\ isinstance_EnvironmentError e = true /\
    sec_ltb now deadline = true /\ next = Some (exn_str e) /\
    tr = tr1 ++ [CallTime now; CallSleep (sec_literal 0.01);
                 CallLoggerDebug "sleeping on connect"].
Proof.
  intros (tr1 & outcome & tr2 & Htry & Hexc & ->)%runs_attempt.
  inversion Hexc; subst. by exists tr1, e, now.
Qed.

Lemma tried_last_error error tr e :
  tried tr (inl e) ->
  last_error error tr =
    if isinstance_EnvironmentError e then Some (exn_str e) else error.
Proof.
  inversion 1; subst; unfold last_error, transient; cbn;
    by destruct (isinstance_EnvironmentError e).
Qed.

Lemma attempt_again_last_error error tr next :
  runs (attempt error) tr (inl next) -> last_error error tr = next.
Proof.
  intros (tr1 & e & now & Htry & Henv & _ & -> & ->)%attempt_again.
  rewrite last_error_app, (tried_last_error _ _ _ Htry), Henv. done.
Qed.

(** Find the call [c] of [pre ++ c :: post] in a trace written out in full. *)
Ltac locate_call pre :=
  repeat (destruct pre as [|? pre]; simplify_eq/=).

Ltac solve_follows :=
  cbn; unfold after_raise;
  repeat match goal with
         | |- True => exact I
         | |- _ /\ _ => split
         | |- _ = ?pre ++ _ => is_evar pre; unify pre (@nil call); reflexivity
         | |- _ = _ => reflexivity
         | H : ?b = _ |- context [if ?b then _ else _] => rewrite H
         | |- exists _, _ => eexists
         | |- runs _ _ _ => eassumption
         end.

(** The position lemma: every connection attempt of the loop is issued and
    handled as [follows] says. *)
Lemma retry_loop_follows error tr r :
  runs (retry_loop error) tr r ->
  forall pre c post, tr = pre ++ c :: post -> follows error pre c post r.
Proof.
  revert error tr r.
  apply (runs_iter_ind attempt
           (fun error tr r =>
              forall pre c post, tr = pre ++ c :: post -> follows error pre c post r)).
  - intros error tr r (tr1 & outcome & tr2 & Htry & Hexc & ->)%runs_attempt
      pre c post Heq.
    inversion Htry; subst; inversion Hexc; subst; locate_call pre; solve_follows.
  - intros error tr1 next tr2 r Hpass Hloop IH pre c post Heq.
    assert (Hnext := attempt_again_last_error _ _ _ Hpass).
    apply app_eq_inv in Heq as [([|c' k] & Htr1 & Hpost) | (k & -> & ->)].
    + rewrite app_nil_r in Htr1. cbn in Hpost. subst pre tr2.
      rewrite <- (app_nil_r tr1).
      apply follows_later. rewrite Hnext. by apply IH.
    + injection Hpost as <- ->. subst tr1.
      apply attempt_again in Hpass as (t1 & e & now & Htry & Henv & Hlt & -> & Heq).
      inversion Htry; subst; locate_call pre; solve_follows.
    + apply follows_later. rewrite Hnext. by apply IH.
Qed.

(** The loop opens with a connection attempt, whatever the deadline. *)
Lemma retry_loop_head error tr r :
  runs (retry_loop error) tr r ->
  exists ans rest, tr = CallConnect connector loc deserialize ans :: rest.
Proof.
  revert error tr r.
  apply (runs_iter_ind attempt
           (fun _ tr _ =>
              exists ans rest, tr = CallConnect connector loc deserialize ans :: rest)).
  - intros error tr r (tr1 & outcome & tr2 & Htry & _ & ->)%runs_attempt.
    destruct Htry; cbn; eauto.
  - intros error tr1 next tr2 r (t1 & outcome & t2 & Htry & _ & ->)%runs_attempt _ _.
    destruct Htry; cbn; eauto.
Qed.

(** An [EnvironmentError] that leaves the loop was built by [_raise] from the
    text of the last error the loop retried on. *)
Lemma retry_loop_timeout error tr r e :
  runs (retry_loop error) tr r ->
  r = inl e -> isinstance_EnvironmentError e = true ->
  e = _raise (last_error error tr).
Proof.
  intros Hr. revert e. revert error tr r Hr.
  apply (runs_iter_ind attempt
           (fun error tr r =>
              forall e, r = inl e -> isinstance_EnvironmentError e = true ->
                        e = _raise (last_error error tr))).
  - intros error tr r (tr1 & outcome & tr2 & Htry & Hexc & ->)%runs_attempt e -> Henv.
    rewrite last_error_app.
    inversion Hexc as [| | e0 now He0 Hlt | e0 He0 Hto | e0 He0 Hto]; subst;
      rewrite (tried_last_error _ _ _ Htry), ?He0; first [done | congruence].
  - intros error tr1 next tr2 r Hpass _ IH e -> Henv.
    rewrite last_error_app, (attempt_again_last_error _ _ _ Hpass). by apply IH.
Qed.

(** Each attempt is given what is left until [deadline] at a reading of the
    clock. *)
Lemma retry_loop_bounds error tr r :
  runs (retry_loop error) tr r ->
  sublist (omap attempt_bound tr) (sec_sub deadline <$> omap clock_reading tr).
Proof.
  revert error tr r.
  apply (runs_iter_ind attempt
           (fun _ tr _ =>
              sublist (omap attempt_bound tr)
                      (sec_sub deadline <$> omap clock_reading tr))).
  - intros error tr r (tr1 & outcome & tr2 & Htry & Hexc & ->)%runs_attempt.
    destruct Htry; destruct Hexc; cbn; repeat constructor.
  - intros error tr1 next tr2 r (t1 & outcome & t2 & Htry & Hexc & ->)%runs_attempt _ IH.
    rewrite !omap_app, !fmap_app. apply sublist_app; [|exact IH].
    apply sublist_app; destruct Htry; destruct Hexc; cbn; repeat constructor.
Qed.

End ConnectFacts.

(** * connect, listen and the Listener scope *)

Section Claims.
Context `{Platform}.
Context (connectors : gmap string Connector) (listeners : gmap string ListenerClass).

(** A call of [connect] on a registered scheme reads the clock once and
    enters the retry loop. *)
Lemma runs_connect addr timeout deserialize scheme loc connector tr r :
  parse_address addr = inr (scheme, loc) ->
  connectors !! scheme = Some connector ->
  runs (connect connectors addr timeout deserialize) tr r <->
  exists start rest,
    tr = CallTime start :: rest /\
    runs (retry_loop addr timeout deserialize connector loc
            (sec_add start timeout) None) rest r.
Proof.
  intros Hparse Hreg. unfold connect. rewrite Hparse, Hreg.
  apply (runs_trigger_bind Time
           (fun start => retry_loop addr timeout deserialize connector loc
                           (sec_add start timeout) None)).
Qed.

Lemma StronglySorted_sublist {A} (R : relation A) (l1 l2 : list A) :
  sublist l1 l2 -> StronglySorted R l2 -> StronglySorted R l1.
Proof.
  induction 1 as [| x l1 l2 Hsub IH | x l1 l2 Hsub IH];
    rewrite ?StronglySorted_cons; [done | |].
  - intros [Hall Hs]. split; [|by apply IH].
    rewrite Forall_forall in *. eauto using elem_of_sublist.
  - intros [_ Hs]. by apply IH.
Qed.

(** What [connect] and [listen] raise for a scheme that is not registered. *)
Definition unknown_scheme (scheme addr : string) : exn :=
  Raise ValueError
    ("unknown scheme " +:+ repr_str scheme +:+ " in address " +:+ repr_str addr).

(** C3: for an address whose scheme has no entry in the registry, [connect]
    and [listen] fail at once with the unknown-scheme error: the only run
    makes no call at all, so there is no connector attempt, no retry and no
    sleep. *)
Theorem unregistered_scheme_fails_at_once addr scheme loc :
  parse_address addr = inr (scheme, loc) ->
  (connectors !! scheme = None ->
   forall timeout deserialize tr r,
     runs (connect connectors addr timeout deserialize) tr r <->
     tr = [] /\ r = inl (unknown_scheme scheme addr)) /\
  (listeners !! scheme = None ->
   forall handle_comm deserialize tr r,
     runs (listen listeners addr handle_comm deserialize) tr r <->
     tr = [] /\ r = inl (unknown_scheme scheme addr)).
Proof.
  intros Hparse. split; intros Hreg *.
  - unfold connect. rewrite Hparse, Hreg. apply runs_ret.
  - unfold listen. rewrite Hparse, Hreg. apply runs_ret.
Qed.

(** C10: on a registered scheme, every run of [connect] starts by reading the
    clock and calling the connector, for any [timeout], also zero or
    negative: in particular no run fails with the timeout error before a
    connection attempt was made. *)
Theorem connect_attempts_first addr timeout deserialize scheme loc connector tr r :
  parse_address addr = inr (scheme, loc) ->
  connectors !! scheme = Some connector ->
  runs (connect connectors addr timeout deserialize) tr r ->
  exists start ans rest,
    tr = CallTime start :: CallConnect connector loc deserialize ans :: rest.
Proof.
  intros Hparse Hreg (start & tl & -> & Hloop)%(runs_connect _ _ _ _ _ _ _ _ Hparse Hreg).
  apply retry_loop_head in Hloop as (ans & rest & ->). eauto.
Qed.

(** C6: on a registered scheme, when the connector's first attempt succeeds,
    [connect] returns the Comm of that attempt after four calls (clock,
    connector, clock, wait), none of which is a sleep; such a run exists for
    every answer of the clock, and a run that starts this way is that run. *)
Theorem connect_first_attempt_succeeds addr timeout deserialize scheme loc connector
    start future now comm :
  parse_address addr = inr (scheme, loc) ->
  connectors !! scheme = Some connector ->
  let first_attempt :=
    [CallTime start;
     CallConnect connector loc deserialize (inr future);
     CallTime now;
     CallWithTimeout (sec_sub (sec_add start timeout) now) future (inr comm)] in
  runs (connect connectors addr timeout deserialize) first_attempt (inr comm) /\
  Forall (fun c => is_sleep c = false) first_attempt /\
  forall tr r c l d bound f rest,
    runs (connect connectors addr timeout deserialize) tr r ->
    tr = CallTime start :: CallConnect c l d (inr future) :: CallTime now
         :: CallWithTimeout bound f (inr comm) :: rest ->
    tr = first_attempt /\ r = inr comm.
Proof.
  intros Hparse Hreg first_attempt. split; [|split].
  - apply (runs_connect _ _ _ _ _ _ _ _ Hparse Hreg). eexists _, _.
    split; [reflexivity|].
    apply runs_iter_exit, runs_attempt. eexists _, _, [].
    split; [apply tried_waited | split; [apply handled_break | reflexivity]].
  - repeat constructor.
  - intros tr r c l d bound f rest
      (start' & tl & Htr & Hloop)%(runs_connect _ _ _ _ _ _ _ _ Hparse Hreg) Heq.
    rewrite Heq in Htr. injection Htr as <- <-.
    pose proof (retry_loop_follows _ _ _ _ _ _ _ _ _ Hloop [] _ _ eq_refl)
      as [(-> & -> & ->) (now' & outcome & post' & Hpost)].
    simplify_eq.
    by pose proof (retry_loop_follows _ _ _ _ _ _ _ _ _ Hloop [_; _] _ _ eq_refl)
      as [_ [-> ->]].
Qed.

(** C8: on a registered scheme, [listen] makes one call, the construction of
    the registered listener class on the location, the handler and the
    deserialize flag, and returns what the construction gives; it does not
    call [start()]. *)
Theorem listen_constructs_listener addr handle_comm deserialize scheme loc cls tr r :
  parse_address addr = inr (scheme, loc) ->
  listeners !! scheme = Some cls ->
  runs (listen listeners addr handle_comm deserialize) tr r <->
  tr = [CallListenerNew cls loc handle_comm deserialize r].
Proof.
  intros Hparse Hreg. unfold listen. rewrite Hparse, Hreg.
  apply (runs_trigger (ListenerNew cls loc handle_comm deserialize)).
Qed.

(** C9: a run of [with mgr as value: block] calls [mgr.start()] once, first;
    when that returns, the block runs on [mgr] itself, and however the block
    ends (normally or by raising) [mgr.stop()] is called once, last.  The
    outcome is the block's, unless [stop()] raised.  Conversely every run of
    the block is wrapped this way. *)
Theorem with_listener_starts_and_stops mgr block tr r :
  runs (with_listener mgr block) tr r <->
  exists started rest,
    tr = CallListenerStart mgr started :: rest /\
    match started with
    | inl e => rest = [] /\ r = inl e
    | inr _ =>
        exists body outcome stopped,
          runs (block mgr) body outcome /\
          rest = body ++ [CallListenerStop mgr stopped] /\
          r = match stopped with
              | inl e => inl e
              | inr _ => outcome
              end
    end.
Proof.
  unfold with_listener, __enter__, __exit__. split.
  - intros (value & tr2 & tr3 & Henter & Hrest & ->)%runs_bind_inv.
    apply runs_trigger_bind in Henter as ([e|[]] & tr' & -> & Henter);
      apply runs_ret in Henter as [-> ->].
    + apply runs_ret in Hrest as [-> ->]. by exists (inl e), [].
    + apply runs_bind_inv in Hrest as (body & outcome & tr4 & Hblock & Hexit & ->).
      exists (inr tt), (body ++ tr4). split; [done|].
      destruct outcome as [e|[]];
        apply runs_bind_inv in Hexit as (tr5 & suppress & tr6 & Hstop & Hend & ->);
        apply runs_trigger_bind in Hstop as ([e'|[]] & tr7 & -> & Hstop);
        apply runs_ret in Hstop as [-> ->];
        apply runs_ret in Hend as [-> ->];
        eexists body, _, _; (split; [eassumption|]); split; reflexivity.
  - intros (started & rest & -> & Hrest). destruct started as [e|[]].
    + destruct Hrest as [-> ->].
      apply (runs_bind _ _ [_] (inl e) []); [|by apply runs_ret].
      apply runs_trigger_bind. eexists (inl e), []. split; [done|]. by apply runs_ret.
    + destruct Hrest as (body & outcome & stopped & Hblock & -> & ->).
      apply (runs_bind _ _ [_] (inr mgr) _).
      { apply runs_trigger_bind. eexists (inr tt), []. split; [done|].
        by apply runs_ret. }
      eapply runs_bind; [exact Hblock|].
      destruct outcome as [e|[]], stopped as [e'|[]].
      all: eapply (runs_bind _ _ [_] _ []);
        [apply runs_trigger_bind; eexists _, []; split; [reflexivity|];
         by apply runs_ret
        |by apply runs_ret].
Qed.

(** In a run of [connect], a connection attempt that raised is handled as
    [after_raise] says, with the deadline computed on entry. *)
Lemma connect_after_raise addr timeout deserialize scheme loc connector tr r
    pre c post e :
  parse_address addr = inr (scheme, loc) ->
  connectors !! scheme = Some connector ->
  runs (connect connectors addr timeout deserialize) tr r ->
  tr = pre ++ c :: post -> raised c = Some e ->
  exists start,
    head tr = Some (CallTime start) /\
    after_raise addr timeout deserialize connector loc (sec_add start timeout)
      (last_error None pre) e post r.
Proof.
  intros Hparse Hreg (start & tl & -> & Hloop)%(runs_connect _ _ _ _ _ _ _ _ Hparse Hreg)
    Heq Hc.
  exists start. split; [done|].
  destruct pre as [|c0 pre]; simplify_eq/=.
  pose proof (retry_loop_follows _ _ _ _ _ _ _ _ _ Hloop pre c post eq_refl) as Hf.
  destruct c as [| c0 l d [e0|] | b f [e0|] | | | | |]; simplify_eq/=;
    by destruct Hf as [_ Hf].
Qed.

(** C2: in a run of [connect], the time bound of every attempt is the
    deadline fixed on entry (first reading of the clock plus [timeout]) minus
    the reading of the clock taken just before the wait.  Hence, for an order
    that subtraction from the deadline reverses, when the readings of the
    clock go up along the run the bounds of the successive attempts go
    down. *)
Theorem connect_attempt_bound addr timeout deserialize scheme loc connector tr r
    (le : relation seconds) :
  parse_address addr = inr (scheme, loc) ->
  connectors !! scheme = Some connector ->
  (forall d a b, le a b -> le (sec_sub d b) (sec_sub d a)) ->
  runs (connect connectors addr timeout deserialize) tr r ->
  exists start,
    head tr = Some (CallTime start) /\
    (forall pre bound f outcome post,
        tr = pre ++ CallWithTimeout bound f outcome :: post ->
        exists pre' now,
          pre = pre' ++ [CallTime now] /\
          bound = sec_sub (sec_add start timeout) now) /\
    (StronglySorted le (omap clock_reading tr) ->
     StronglySorted (flip le) (omap attempt_bound tr)).
Proof.
  intros Hparse Hreg Hle
    (start & tl & -> & Hloop)%(runs_connect _ _ _ _ _ _ _ _ Hparse Hreg).
  exists start. split; [done|]. split.
  - intros pre bound f outcome post Heq.
    destruct pre as [|c0 pre]; simplify_eq/=.
    destruct (retry_loop_follows _ _ _ _ _ _ _ _ _ Hloop pre _ post eq_refl)
      as [(pre' & now & -> & ->) _].
    exists (CallTime start :: pre' ++ [CallConnect connector loc deserialize (inr f)]), now.
    split; [|done]. cbn. by rewrite <- (assoc_L (++)).
  - cbn. intros [_ Hsorted]%StronglySorted_cons.
    eapply StronglySorted_sublist; [by eapply retry_loop_bounds|].
    eapply StronglySorted_fmap; [|exact Hsorted]. intros a b. apply Hle.
Qed.

(** C4: on a registered scheme, an error of the [EnvironmentError] class that
    leaves [connect] is the [IOError] of [_raise]: its message is made of the
    address (as [%r]), the [timeout] passed by the caller (as [%s]) and the
    text of the last error the loop retried on, or a fixed text when there
    was none or its text was empty. *)
Theorem connect_timeout_message addr timeout deserialize scheme loc connector tr r e :
  parse_address addr = inr (scheme, loc) ->
  connectors !! scheme = Some connector ->
  runs (connect connectors addr timeout deserialize) tr r ->
  r = inl e -> isinstance_EnvironmentError e = true ->
  e = _raise addr timeout (last_error None tr) /\
  e = Raise IOError
        ("Timed out trying to connect to " +:+ repr_str addr +:+ " after "
         +:+ str_seconds timeout +:+ " s: "
         +:+ match last (omap transient tr) with
             | Some "" | None => "connect() didn't finish in time"
             | Some text => text
             end).
Proof.
  intros Hparse Hreg (start & tl & -> & Hloop)%(runs_connect _ _ _ _ _ _ _ _ Hparse Hreg)
    -> Henv.
  assert (He : e = _raise addr timeout (last_error None (CallTime start :: tl)))
    by apply (retry_loop_timeout _ _ _ _ _ _ _ _ _ _ Hloop eq_refl Henv).
  split; [done|]. rewrite He. unfold _raise, last_error.
  by destruct (last (omap transient (CallTime start :: tl))) as [[]|].
Qed.

End Claims.

(** * The theorems on concrete runs *)

Section Examples.
#[local] Existing Instance Example.platform.

Ltac by_exec script :=
  apply (exec_runs 20 _ script); vm_compute; reflexivity.

Lemma unregistered_scheme_fails_at_once_witness :
  runs (connect Example.connectors "zmq://10.0.0.7:8786" 3000%Z true) []
       (inl (Raise ValueError "unknown scheme 'zmq' in address 'zmq://10.0.0.7:8786'")) /\
  runs (listen Example.listeners "zmq://10.0.0.7:8786" 3%nat true) []
       (inl (Raise ValueError "unknown scheme 'zmq' in address 'zmq://10.0.0.7:8786'")).
Proof.
  destruct (unregistered_scheme_fails_at_once Example.connectors Example.listeners
              "zmq://10.0.0.7:8786" "zmq" "10.0.0.7:8786" eq_refl) as [Hc Hl].
  split; [apply Hc | apply Hl]; [reflexivity | | reflexivity |]; split; reflexivity.
Defined.

Lemma connect_attempts_first_witness :
  exists start ans rest,
    Example.late_run
    = CallTime start :: CallConnect 1%nat Example.loc true ans :: rest.
Proof.
  apply (@connect_attempts_first Example.platform
           Example.connectors Example.addr (-5)%Z true
           "tcp" Example.loc 1%nat Example.late_run
           (inl (@_raise Example.platform Example.addr (-5)%Z
                   (Some (exn_str Example.refused))))).
  - reflexivity.
  - reflexivity.
  - by_exec [AnsTime 0%Z; AnsFuture (inl Example.refused); AnsTime 60%Z].
Defined.

Lemma connect_attempt_bound_witness :
  (exists start,
      head Example.two_waits_run = Some (CallTime start) /\
      forall pre bound f outcome post,
        Example.two_waits_run = pre ++ CallWithTimeout bound f outcome :: post ->
        exists pre' now,
          pre = pre' ++ [CallTime now] /\ bound = sec_sub (sec_add start 3000%Z) now) /\
  StronglySorted (flip Z.le) (omap attempt_bound Example.two_waits_run).
Proof.
  destruct (@connect_attempt_bound Example.platform
              Example.connectors Example.addr 3000%Z true "tcp" Example.loc 1%nat
              Example.two_waits_run (inr 9%nat) Z.le)
    as (start & Hhead & Hbound & Hsorted).
  - reflexivity.
  - reflexivity.
  - intros d a b. cbn. lia.
  - by_exec [AnsTime 0%Z; AnsFuture (inr 4%nat); AnsTime 1%Z;
             AnsComm (inl Example.refused); AnsTime 6%Z; AnsUnit; AnsUnit;
             AnsFuture (inr 5%nat); AnsTime 17%Z; AnsComm (inr 9%nat)].
  - split; [by exists start|]. apply Hsorted. cbn.
    repeat (constructor; [|repeat (constructor; [lia|]); constructor]); constructor.
Defined.

Lemma connect_timeout_message_witness :
  let e := Raise IOError
             "Timed out trying to connect to 'tcp://10.0.0.7:8786' after 50e-3 s: [Errno 111] Connection refused" in
  e = @_raise Example.platform Example.addr 50%Z (last_error None Example.late_run) /\
  e = Raise IOError
        ("Timed out trying to connect to " +:+ repr_str Example.addr +:+ " after "
         +:+ str_seconds 50%Z +:+ " s: "
         +:+ match last (omap transient Example.late_run) with
             | Some "" | None => "connect() didn't finish in time"
             | Some text => text
             end).
Proof.
  apply (@connect_timeout_message Example.platform
           Example.connectors Example.addr 50%Z true "tcp" Example.loc 1%nat
           Example.late_run
           (inl (@_raise Example.platform Example.addr 50%Z
                   (Some (exn_str Example.refused))))).
  - reflexivity.
  - reflexivity.
  - by_exec [AnsTime 0%Z; AnsFuture (inl Example.refused); AnsTime 60%Z].
  - vm_compute; reflexivity.
  - reflexivity.
Defined.

Lemma connect_first_attempt_succeeds_witness :
  let first_attempt :=
    [CallTime 0%Z; CallConnect 1%nat Example.loc true (inr 4%nat); CallTime 1%Z;
     CallWithTimeout 2999%Z 4%nat (inr 9%nat)] in
  runs (connect Example.connectors Example.addr 3000%Z true) first_attempt
       (inr 9%nat) /\
  Forall (fun c => is_sleep c = false) first_attempt.
Proof.
  destruct (@connect_first_attempt_succeeds Example.platform
              Example.connectors Example.addr 3000%Z true "tcp" Example.loc 1%nat
              0%Z 4%nat 1%Z 9%nat eq_refl eq_refl) as (Hrun & Hquiet & _).
  split; [exact Hrun | exact Hquiet].
Defined.

Lemma listen_constructs_listener_witness :
  runs (listen Example.listeners "tcp://0.0.0.0:8786" 3%nat true)
       [CallListenerNew 7%nat "0.0.0.0:8786" 3%nat true (inr 11%nat)]
       (inr 11%nat).
Proof.
  apply (@listen_constructs_listener Example.platform
           Example.listeners "tcp://0.0.0.0:8786" 3%nat true "tcp" "0.0.0.0:8786"
           7%nat); reflexivity.
Defined.


End Examples.

(** * More on the retry loop: what a whole run looks like *)

Section TraceReading.
Context `{Platform}.

Definition sleep_duration (c : call) : option seconds :=
  match c with
  | CallSleep duration => Some duration
  | _ => None
  end.

Definition connector_answer (c : call) : option (exn + Future) :=
  match c with
  | CallConnect _ _ _ ans => Some ans
  | _ => None
  end.

Definition logged (c : call) : option string :=
  match c with
  | CallLoggerDebug msg => Some msg
  | _ => None
  end.

(** The calls [connect] can make once the scheme is resolved to
    [connector] and [loc]: no call on a listener is among them. *)
Definition connect_call (connector : Connector) (loc : string) (deserialize : bool)
    (c : call) : Prop :=
  match c with
  | CallTime _ | CallWithTimeout _ _ _ => True
  | CallConnect c0 l d _ => c0 = connector /\ l = loc /\ d = deserialize
  | CallSleep duration => duration = sec_literal 0.01
  | CallLoggerDebug msg => msg = "sleeping on connect"
  | CallListenerNew _ _ _ _ _ | CallListenerStart _ _ | CallListenerStop _ _ => False
  end.

(** An assumption on the clock, with times read as rationals by [ms]: from
    the reading before a sleep to the reading after the next connector call,
    at least [step] has passed. *)
Definition sleep_advances (ms : seconds -> Q) (step : Q) (tr : list call) : Prop :=
  forall pre now duration msg c l d ans now' post,
    tr = pre ++ [CallTime now; CallSleep duration; CallLoggerDebug msg;
                 CallConnect c l d ans; CallTime now'] ++ post ->
    (ms now + step <= ms now')%Q.

(** An attempt that failed: [connector.connect] raised, or the wait on the
    future it returned did, after a reading [asked_at] of the clock. *)
Variant failure : Type :=
| Refused (e : exn)
| Broken (future : Future) (asked_at : seconds) (e : exn).

Definition failure_exn (f : failure) : exn :=
  match f with
  | Refused e | Broken _ _ e => e
  end.

(** The calls of the [try:] block for a failed attempt. *)
Definition failed_try (connector : Connector) (loc : string) (deserialize : bool)
    (deadline : seconds) (f : failure) : list call :=
  match f with
  | Refused e => [CallConnect connector loc deserialize (inl e)]
  | Broken future asked_at e =>
      [CallConnect connector loc deserialize (inr future);
       CallTime asked_at;
       CallWithTimeout (sec_sub deadline asked_at) future (inl e)]
  end.

(** The calls of a pass that fails, reads [now] on the clock and sleeps. *)
Definition retried_pass (connector : Connector) (loc : string) (deserialize : bool)
    (deadline : seconds) (fn : failure * seconds) : list call :=
  failed_try connector loc deserialize deadline fn.1
  ++ [CallTime fn.2; CallSleep (sec_literal 0.01);
      CallLoggerDebug "sleeping on connect"].

End TraceReading.

(** Find the call [c] of [pre ++ c :: post] in a trace written out in full. *)
Ltac find_call pre :=
  repeat (destruct pre as [|? pre]; simplify_eq/=).

Section LoopFacts.
Context `{Platform}.
Context (addr : string) (timeout : seconds) (deserialize : bool).
Context (connector : Connector) (loc : string) (deadline : seconds).

Local Abbreviation attempt := (attempt addr timeout deserialize connector loc deadline).
Local Abbreviation retry_loop := (retry_loop addr timeout deserialize connector loc deadline).
Local Abbreviation _raise := (_raise addr timeout).
Local Abbreviation tried := (tried deserialize connector loc deadline).
Local Abbreviation handled := (handled addr timeout deadline).

(** The calls of a pass that leaves the loop: no sleep, one connector call,
    and a retried error only when the deadline was found passed. *)
Lemma attempt_exit_counts error tr r :
  runs (attempt error) tr (inr r) ->
  omap sleep_duration tr = [] /\ omap logged tr = [] /\
  length (omap connector_answer tr) = 1 /\
  length (omap transient tr) <= 1 /\
  (forall comm, r = inr comm -> omap transient tr = []).
Proof.
  intros (tr1 & outcome & tr2 & Htry & Hexc & ->)%runs_attempt.
  inversion Htry; subst; inversion Hexc as [| | e0 ? He0 | e0 He0 | e0 He0]; subst;
    unfold transient; cbn; rewrite ?He0; cbn; repeat split; auto; done.
Qed.

(** The calls of a pass that goes round again: one connector call, one
    retried error, one sleep, one log line. *)
Lemma attempt_again_counts error tr next :
  runs (attempt error) tr (inl next) ->
  omap sleep_duration tr = [sec_literal 0.01] /\
  omap logged tr = ["sleeping on connect"] /\
  length (omap connector_answer tr) = 1 /\
  length (omap transient tr) = 1.
Proof.
  intros (tr1 & e & now & Htry & Henv & _ & _ & ->)%attempt_again.
  inversion Htry; subst; unfold transient; cbn; rewrite Henv; done.
Qed.

Lemma retry_loop_counts error tr r :
  runs (retry_loop error) tr r ->
  length (omap connector_answer tr) = S (length (omap sleep_duration tr)) /\
  length (omap logged tr) = length (omap sleep_duration tr) /\
  length (omap sleep_duration tr) <= length (omap transient tr)
    <= S (length (omap sleep_duration tr)) /\
  (forall comm, r = inr comm ->
                length (omap transient tr) = length (omap sleep_duration tr)).
Proof.
  revert error tr r.
  apply (runs_iter_ind attempt
           (fun _ tr r =>
              length (omap connector_answer tr) = S (length (omap sleep_duration tr)) /\
              length (omap logged tr) = length (omap sleep_duration tr) /\
              length (omap sleep_duration tr) <= length (omap transient tr)
                <= S (length (omap sleep_duration tr)) /\
              (forall comm, r = inr comm ->
                            length (omap transient tr)
                            = length (omap sleep_duration tr)))).
  - intros error tr r (Hs & Hl & Hc & Ht & Hok)%attempt_exit_counts.
    rewrite Hs, Hl, Hc. cbn. repeat split; [lia | lia |].
    intros comm ->. by rewrite (Hok comm).
  - intros error tr1 next tr2 r (Hs & Hl & Hc & Ht)%attempt_again_counts _
      (IHc & IHl & IHt & IHok).
    rewrite !omap_app, !length_app, Hs, Hl, Hc, Ht. cbn.
    repeat split; [lia | lia | lia | lia |].
    intros comm Hr. rewrite (IHok comm Hr). done.
Qed.

(** Every call of the loop is one [connect] is written to make. *)
Lemma retry_loop_calls error tr r :
  runs (retry_loop error) tr r ->
  Forall (connect_call connector loc deserialize) tr.
Proof.
  revert error tr r.
  apply (runs_iter_ind attempt
           (fun _ tr _ => Forall (connect_call connector loc deserialize) tr)).
  - intros error tr r (tr1 & outcome & tr2 & Htry & Hexc & ->)%runs_attempt.
    inversion Htry; subst; inversion Hexc; subst; repeat constructor.
  - intros error tr1 next tr2 r
      (t1 & e & now & Htry & _ & _ & _ & ->)%attempt_again _ IH.
    apply Forall_app. split; [|exact IH].
    inversion Htry; subst; repeat constructor.
Qed.

(** Where a sleep sits in a run of the loop: right after the reading of the
    clock that follows a retried error, and before the log line and the next
    connector call. *)
Definition around_sleep (pre : list call) (duration : seconds) (post : list call)
  : Prop :=
  duration = sec_literal 0.01 /\
  exists pre' c e now ans rest,
    pre = pre' ++ [c; CallTime now] /\
    raised c = Some e /\ isinstance_EnvironmentError e = true /\
    sec_ltb now deadline = true /\
    post = CallLoggerDebug "sleeping on connect"
           :: CallConnect connector loc deserialize ans :: rest.

Lemma around_sleep_later tr1 pre duration post :
  around_sleep pre duration post -> around_sleep (tr1 ++ pre) duration post.
Proof.
  intros [Hd (pre' & c & e & now & ans & rest & -> & Hrest)]. split; [done|].
  exists (tr1 ++ pre'), c, e, now, ans, rest. by rewrite (assoc_L (++)).
Qed.

Lemma retry_loop_sleep error tr r :
  runs (retry_loop error) tr r ->
  forall pre duration post,
    tr = pre ++ CallSleep duration :: post -> around_sleep pre duration post.
Proof.
  revert error tr r.
  apply (runs_iter_ind attempt
           (fun _ tr _ =>
              forall pre duration post,
                tr = pre ++ CallSleep duration :: post ->
                around_sleep pre duration post)).
  - intros error tr r (tr1 & outcome & tr2 & Htry & Hexc & ->)%runs_attempt
      pre duration post Heq.
    inversion Htry; subst; inversion Hexc; subst; find_call pre.
  - intros error tr1 next tr2 r Hpass Hloop IH pre duration post Heq.
    apply app_eq_inv in Heq as [([|c' k] & Htr1 & Hpost) | (k & -> & ->)].
    + rewrite app_nil_r in Htr1. cbn in Hpost. subst pre tr2.
      rewrite <- (app_nil_r tr1). by apply around_sleep_later, IH.
    + injection Hpost as <- ->. subst tr1.
      apply attempt_again in Hpass as (t1 & e & now & Htry & Henv & Hlt & _ & Heq).
      apply retry_loop_head in Hloop as (ans & rest & ->).
      inversion Htry; subst; find_call pre; (split; [done|]).
      * by exists [], (CallConnect connector loc deserialize (inl e)), e, now, ans, rest.
      * by eexists [_; _], (CallWithTimeout _ future (inl e)), e, now, ans, rest.
    + by apply around_sleep_later, IH.
Qed.




Lemma sleep_advances_later ms step tr1 tr2 :
  sleep_advances ms step (tr1 ++ tr2) -> sleep_advances ms step tr2.
Proof.
  intros Hadv pre now duration msg c l d ans now' post ->.
  apply (Hadv (tr1 ++ pre) now duration msg c l d ans now' post).
  by rewrite (assoc_L (++)).
Qed.

(** With a clock that does not go back and advances over every sleep, the
    [n+1]-th sleep of the loop starts at least [n] steps after the first
    reading, and before the deadline. *)
Lemma retry_loop_sleeps_bounded (ms : seconds -> Q) (step : Q) :
  (forall a b, sec_ltb a b = true -> (ms a < ms b)%Q) ->
  forall error tr r,
    runs (retry_loop error) tr r ->
    forall lo,
      Forall (fun t => (lo <= ms t)%Q) (omap clock_reading tr) ->
      StronglySorted Qle (ms <$> omap clock_reading tr) ->
      sleep_advances ms step tr ->
      forall n, length (omap sleep_duration tr) = S n ->
                (lo + inject_Z (Z.of_nat n) * step < ms deadline)%Q.
Proof.
  intros Hms.
  apply (runs_iter_ind attempt
           (fun _ tr _ =>
              forall lo,
                Forall (fun t => (lo <= ms t)%Q) (omap clock_reading tr) ->
                StronglySorted Qle (ms <$> omap clock_reading tr) ->
                sleep_advances ms step tr ->
                forall n, length (omap sleep_duration tr) = S n ->
                          (lo + inject_Z (Z.of_nat n) * step < ms deadline)%Q)).
  - intros error tr r (Hs & _)%attempt_exit_counts lo _ _ _ n Hn.
    by rewrite Hs in Hn.
  - intros error tr1 next tr2 r Hpass Hloop IH lo Hlo Hsorted Hadv n Hn.
    pose proof (attempt_again_counts _ _ _ Hpass) as (Hs & _).
    rewrite omap_app, length_app, Hs in Hn. injection Hn as Hn.
    apply attempt_again in Hpass as (t1 & e & now & Htry & Henv & Hlt & _ & ->).
    apply Hms in Hlt.
    rewrite !omap_app in Hlo, Hsorted. cbn in Hlo, Hsorted.
    apply Forall_app in Hlo as [Hlo1 Hlo2].
    apply Forall_app in Hlo1 as [_ Hnow]. apply Forall_inv in Hnow.
    rewrite fmap_app in Hsorted. apply StronglySorted_app_1_r in Hsorted.
    cbv beta in Hnow.
    destruct n as [|n]; [change (inject_Z (Z.of_nat 0)) with 0%Q; lra|].
    assert (Hrest : exists ans now' rest,
               tr2 = CallConnect connector loc deserialize ans :: CallTime now' :: rest).
    { destruct (retry_loop_head _ _ _ _ _ _ _ _ _ Hloop) as (ans & rest & ->).
      pose proof (retry_loop_follows _ _ _ _ _ _ _ _ _ Hloop [] _ rest eq_refl)
        as [_ Hf].
      destruct ans as [e1|future].
      - unfold after_raise in Hf.
        destruct (isinstance_EnvironmentError e1).
        + destruct Hf as (now' & post' & -> & _). by exists (inl e1), now', post'.
        + assert (rest = []) as ->
            by (destruct (isinstance_TimeoutError e1); by destruct Hf).
          discriminate Hn.
      - destruct Hf as (now' & outcome & post' & ->). by eexists (inr future), now', _. }
    destruct Hrest as (ans & now' & rest & ->).
    assert (Hstep : (ms now + step <= ms now')%Q).
    { apply (Hadv t1 now (sec_literal 0.01) "sleeping on connect"
               connector loc deserialize ans now' rest).
      by rewrite <- (assoc_L (++)). }
    cbn in Hsorted. apply StronglySorted_cons in Hsorted as Hfirst.
    destruct Hfirst as [Hfirst _].
    assert (Hgoal : (ms now + step + inject_Z (Z.of_nat n) * step < ms deadline)%Q).
    { apply (IH (ms now + step)%Q); [| exact Hsorted
                                     | by eapply sleep_advances_later | exact Hn].
      cbn [omap list_omap clock_reading]. constructor; [exact Hstep|].
      rewrite Forall_fmap in Hfirst. eapply Forall_impl; [exact Hfirst|].
      intros t Ht. unfold compose in Ht. lra. }
    rewrite Nat2Z.inj_succ. unfold Z.succ. rewrite inject_Z_plus.
    change (inject_Z 1) with 1%Q.
    assert (Hx : ((inject_Z (Z.of_nat n) + 1) * step
                  == inject_Z (Z.of_nat n) * step + step)%Q) by ring.
    rewrite Hx. set (x := (inject_Z (Z.of_nat n) * step)%Q) in *. lra.
Qed.

(** A failed attempt is a run of the [try:] block. *)
Lemma tried_failed f :
  tried (failed_try connector loc deserialize deadline f) (inl (failure_exn f)).
Proof. destruct f; constructor. Qed.

Lemma last_error_failed_try error f :
  isinstance_EnvironmentError (failure_exn f) = true ->
  last_error error (failed_try connector loc deserialize deadline f)
  = Some (exn_str (failure_exn f)).
Proof.
  intros Henv. by rewrite (tried_last_error _ _ _ _ _ _ _ (tried_failed f)), Henv.
Qed.

(** The loop goes through any number of failed attempts, as long as each is
    of the retried class and the clock read after it is before the
    deadline. *)
Lemma retry_loop_retries fails :
  Forall (fun fn => isinstance_EnvironmentError (failure_exn fn.1) = true /\
                    sec_ltb fn.2 deadline = true) fails ->
  forall error tr r,
    runs (retry_loop
            (last_error error
               (flat_map (retried_pass connector loc deserialize deadline) fails)))
         tr r ->
    runs (retry_loop error)
         (flat_map (retried_pass connector loc deserialize deadline) fails ++ tr) r.
Proof.
  induction 1 as [|[f now] fails [Henv Hlt] _ IH]; intros error tr r Hr; [done|].
  cbn [flat_map] in *. rewrite <- (assoc_L (++)).
  apply (runs_iter_again attempt error _ (Some (exn_str (failure_exn f)))).
  - apply runs_attempt. eexists _, _, _.
    split; [apply tried_failed|]. split; [by apply handled_sleep | done].
  - apply IH. rewrite last_error_app in Hr.
    unfold retried_pass in Hr at 1. by rewrite last_error_app, last_error_failed_try in Hr.
Qed.

Lemma retried_sleeps fails :
  length (omap sleep_duration
            (flat_map (retried_pass connector loc deserialize deadline) fails))
  = length fails.
Proof.
  induction fails as [|[f now] fails IH]; [done|].
  cbn [flat_map]. rewrite omap_app, length_app, IH. by destruct f.
Qed.

(** After a series of retried failures the loop variable [error] holds the
    text of the last of them. *)
Lemma last_error_retried error fails :
  Forall (fun fn => isinstance_EnvironmentError (failure_exn fn.1) = true /\
                    sec_ltb fn.2 deadline = true) fails ->
  last_error error (flat_map (retried_pass connector loc deserialize deadline) fails)
  = match last fails with
    | Some fn => Some (exn_str (failure_exn fn.1))
    | None => error
    end.
Proof.
  intros Hfails. revert error.
  induction Hfails as [|[f now] fails [Henv _] _ IH]; intros error; [done|].
  cbn [flat_map]. rewrite last_error_app, IH. unfold retried_pass.
  rewrite last_error_app, last_error_failed_try by done.
  rewrite last_cons. by destruct (last fails).
Qed.


Lemma retry_loop_gives_up error f now :
  isinstance_EnvironmentError (failure_exn f) = true ->
  sec_ltb now deadline = false ->
  runs (retry_loop error)
       (failed_try connector loc deserialize deadline f ++ [CallTime now])
       (inl (_raise (Some (exn_str (failure_exn f))))).
Proof.
  intros Henv Hlt. apply runs_iter_exit, runs_attempt. eexists _, _, _.
  split; [apply tried_failed|]. split; [by apply handled_late | done].
Qed.

Lemma retry_loop_raises error f :
  isinstance_EnvironmentError (failure_exn f) = false ->
  runs (retry_loop error)
       (failed_try connector loc deserialize deadline f)
       (inl (if isinstance_TimeoutError (failure_exn f)
             then _raise error
             else failure_exn f)).
Proof.
  intros Henv. rewrite <- (app_nil_r (failed_try _ _ _ _ f)).
  apply runs_iter_exit, runs_attempt. eexists _, _, [].
  split; [apply tried_failed|]. split; [|done].
  destruct (isinstance_TimeoutError (failure_exn f)) eqn:Hto.
  - by apply handled_timeout.
  - by apply handled_other.
Qed.

End LoopFacts.

(** * Whole runs of connect, and the Listener scope *)

Section ConnectRuns.
Context `{Platform}.
Context (connectors : gmap string Connector).


(** X2: in a run of [connect] on a registered scheme, the connector is called
    once more than [connect] sleeps, and every sleep is logged once. *)
Theorem connect_attempts_and_sleeps addr timeout deserialize scheme loc connector tr r :
  parse_address addr = inr (scheme, loc) ->
  connectors !! scheme = Some connector ->
  runs (connect connectors addr timeout deserialize) tr r ->
  length (omap connector_answer tr) = S (length (omap sleep_duration tr)) /\
  length (omap logged tr) = length (omap sleep_duration tr).
Proof.
  intros Hparse Hreg
    (start & rest & -> & Hloop)%(runs_connect _ _ _ _ _ _ _ _ _ Hparse Hreg).
  by destruct (retry_loop_counts _ _ _ _ _ _ _ _ _ Hloop) as (Hc & Hl & _).
Qed.

(** X3: in a run of [connect] on a registered scheme, the number of sleeps is
    the number of attempts that raised an [EnvironmentError], or one less
    (the last such error found the deadline passed); when [connect] returns
    a Comm the two numbers are equal. *)
Theorem connect_sleeps_and_failures addr timeout deserialize scheme loc connector tr r :
  parse_address addr = inr (scheme, loc) ->
  connectors !! scheme = Some connector ->
  runs (connect connectors addr timeout deserialize) tr r ->
  length (omap sleep_duration tr) <= length (omap transient tr)
    <= S (length (omap sleep_duration tr)) /\
  (forall comm, r = inr comm ->
                length (omap transient tr) = length (omap sleep_duration tr)).
Proof.
  intros Hparse Hreg
    (start & rest & -> & Hloop)%(runs_connect _ _ _ _ _ _ _ _ _ Hparse Hreg).
  by destruct (retry_loop_counts _ _ _ _ _ _ _ _ _ Hloop) as (_ & _ & Ht & Hok).
Qed.

(** X4: [connect] sleeps only for [0.01] s, and only right after a reading of
    the clock strictly before the deadline that itself follows an attempt
    which raised an [EnvironmentError]; the sleep is followed by the log line
    and a new call of the connector.  So it never sleeps once the deadline is
    reached, and never twice between two attempts. *)
Theorem connect_sleeps_before_deadline addr timeout deserialize scheme loc connector
    tr r pre duration post :
  parse_address addr = inr (scheme, loc) ->
  connectors !! scheme = Some connector ->
  runs (connect connectors addr timeout deserialize) tr r ->
  tr = pre ++ CallSleep duration :: post ->
  duration = sec_literal 0.01 /\
  exists start pre' c e now ans rest,
    head tr = Some (CallTime start) /\
    pre = pre' ++ [c; CallTime now] /\
    raised c = Some e /\ isinstance_EnvironmentError e = true /\
    sec_ltb now (sec_add start timeout) = true /\
    post = CallLoggerDebug "sleeping on connect"
           :: CallConnect connector loc deserialize ans :: rest.
Proof.
  intros Hparse Hreg
    (start & tl & -> & Hloop)%(runs_connect _ _ _ _ _ _ _ _ _ Hparse Hreg) Heq.
  destruct pre as [|c0 pre]; simplify_eq/=.
  destruct (retry_loop_sleep _ _ _ _ _ _ _ _ _ Hloop pre duration post eq_refl)
    as [Hd (pre' & c & e & now & ans & rest & -> & Hc & Henv & Hlt & ->)].
  split; [done|].
  by exists start, (CallTime start :: pre'), c, e, now, ans, rest.
Qed.

(** X5: in a run of [connect] on a registered scheme every call is a reading
    of the clock, a call of the connector registered for the scheme with the
    location of the address and the caller's [deserialize], a wait, a sleep
    of [0.01] s or the one log line: [connect] never constructs, starts or
    stops a listener and never calls another connector. *)
Theorem connect_calls addr timeout deserialize scheme loc connector tr r :
  parse_address addr = inr (scheme, loc) ->
  connectors !! scheme = Some connector ->
  runs (connect connectors addr timeout deserialize) tr r ->
  Forall (connect_call connector loc deserialize) tr.
Proof.
  intros Hparse Hreg
    (start & tl & -> & Hloop)%(runs_connect _ _ _ _ _ _ _ _ _ Hparse Hreg).
  constructor; [done|]. by eapply retry_loop_calls.
Qed.

(** X6: [connect] cannot retry for ever against a clock that moves.  Read
    times as rationals by any [ms] under which [<] is the order of the
    rationals (for floats, their exact values).  If in a run the readings of
    the clock never go back and at least [step] passes over each sleep, then
    a run with [n + 1] sleeps has [n] steps between the first reading of the
    clock and the deadline [connect] computed from it. *)
Theorem connect_sleeps_bounded addr timeout deserialize scheme loc connector tr r
    (ms : seconds -> Q) (step : Q) (n : nat) :
  parse_address addr = inr (scheme, loc) ->
  connectors !! scheme = Some connector ->
  (forall a b, sec_ltb a b = true -> (ms a < ms b)%Q) ->
  runs (connect connectors addr timeout deserialize) tr r ->
  StronglySorted Qle (ms <$> omap clock_reading tr) ->
  sleep_advances ms step tr ->
  length (omap sleep_duration tr) = S n ->
  exists start,
    head tr = Some (CallTime start) /\
    (ms start + inject_Z (Z.of_nat n) * step < ms (sec_add start timeout))%Q.
Proof.
  intros Hparse Hreg Hlt
    (start & tl & -> & Hloop)%(runs_connect _ _ _ _ _ _ _ _ _ Hparse Hreg)
    Hsorted Hadv Hn.
  exists start. split; [done|].
  cbn in Hsorted, Hn. apply StronglySorted_cons in Hsorted as [Hfirst Hsorted].
  rewrite Forall_fmap in Hfirst.
  exact (retry_loop_sleeps_bounded _ _ _ _ _ _ ms step Hlt _ _ _ Hloop
           (ms start) Hfirst Hsorted
           (sleep_advances_later ms step [CallTime start] tl Hadv) n Hn).
Qed.

(** X7: a [with] block over a Listener completes normally exactly when
    [start()], the block and [stop()] all returned normally, in that order:
    the scope never swallows an exception of the block or of the listener. *)
Theorem with_listener_completes_normally mgr block tr :
  runs (with_listener mgr block) tr (inr tt) <->
  exists body,
    runs (block mgr) body (inr tt) /\
    tr = CallListenerStart mgr (inr tt) :: body ++ [CallListenerStop mgr (inr tt)].
Proof.
  unfold with_listener, __enter__, __exit__. split.
  - intros (value & tr2 & tr3 & Henter & Hrest & ->)%runs_bind_inv.
    apply runs_trigger_bind in Henter as ([e|[]] & tr' & -> & Henter);
      apply runs_ret in Henter as [-> ->].
    + by apply runs_ret in Hrest as [_ ?].
    + apply runs_bind_inv in Hrest as (body & outcome & tr4 & Hblock & Hexit & ->).
      destruct outcome as [e|[]];
        apply runs_bind_inv in Hexit as (tr5 & suppress & tr6 & Hstop & Hend & ->);
        apply runs_trigger_bind in Hstop as ([e'|[]] & tr7 & -> & Hstop);
        apply runs_ret in Hstop as [-> ->];
        apply runs_ret in Hend as [-> Hr]; try discriminate Hr.
      by exists body.
  - intros (body & Hblock & ->).
    apply (runs_bind _ _ [_] (inr mgr) _).
    { apply runs_trigger_bind. eexists (inr tt), []. split; [done|].
      by apply runs_ret. }
    eapply runs_bind; [exact Hblock|].
    eapply (runs_bind _ _ [_] _ []);
      [apply runs_trigger_bind; eexists (inr tt), []; split; [reflexivity|];
       by apply runs_ret
      |by apply runs_ret].
Qed.

(** X8: retrying works for any number of failures.  On a registered scheme,
    for any list of failed attempts, each of the [EnvironmentError] class
    and each followed by a reading of the clock before the deadline, and a
    final attempt that succeeds, [connect] has the run that goes through all
    of them and returns the Comm of the last; it sleeps once per failure. *)
Theorem connect_succeeds_after_failures addr timeout deserialize scheme loc connector
    start fails future now comm :
  parse_address addr = inr (scheme, loc) ->
  connectors !! scheme = Some connector ->
  let deadline := sec_add start timeout in
  Forall (fun fn => isinstance_EnvironmentError (failure_exn fn.1) = true /\
                    sec_ltb fn.2 deadline = true) fails ->
  let tr :=
    CallTime start
    :: flat_map (retried_pass connector loc deserialize deadline) fails
    ++ [CallConnect connector loc deserialize (inr future);
        CallTime now;
        CallWithTimeout (sec_sub deadline now) future (inr comm)] in
  runs (connect connectors addr timeout deserialize) tr (inr comm) /\
  length (omap sleep_duration tr) = length fails.
Proof.
  intros Hparse Hreg deadline Hfails tr. split.
  - apply (runs_connect _ _ _ _ _ _ _ _ _ Hparse Hreg). eexists _, _.
    split; [reflexivity|].
    apply retry_loop_retries; [exact Hfails|].
    apply runs_iter_exit, runs_attempt. eexists _, _, [].
    split; [apply tried_waited | split; [apply handled_break | reflexivity]].
  - unfold tr. cbn [omap list_omap sleep_duration].
    rewrite omap_app, length_app, retried_sleeps. cbn. lia.
Qed.

(** X9: on a registered scheme, after any number of retried failures, when
    one more attempt fails with an [EnvironmentError] and the clock read
    after it is not before the deadline, [connect] has the run that ends
    there with the timeout error carrying the text of that last error. *)
Theorem connect_times_out_after_failures addr timeout deserialize scheme loc connector
    start fails f now :
  parse_address addr = inr (scheme, loc) ->
  connectors !! scheme = Some connector ->
  let deadline := sec_add start timeout in
  Forall (fun fn => isinstance_EnvironmentError (failure_exn fn.1) = true /\
                    sec_ltb fn.2 deadline = true) fails ->
  isinstance_EnvironmentError (failure_exn f) = true ->
  sec_ltb now deadline = false ->
  runs (connect connectors addr timeout deserialize)
       (CallTime start
        :: flat_map (retried_pass connector loc deserialize deadline) fails
        ++ failed_try connector loc deserialize deadline f ++ [CallTime now])
       (inl (_raise addr timeout (Some (exn_str (failure_exn f))))).
Proof.
  intros Hparse Hreg deadline Hfails Henv Hlt.
  apply (runs_connect _ _ _ _ _ _ _ _ _ Hparse Hreg). eexists _, _.
  split; [reflexivity|].
  apply retry_loop_retries; [exact Hfails|].
  apply runs_iter_exit, runs_attempt. eexists _, _, _.
  split; [apply tried_failed|]. split; [by apply handled_late | done].
Qed.

End ConnectRuns.

(** * The further theorems on concrete runs *)

Section MoreExamples.
#[local] Existing Instance Example.platform.

Ltac run_script script :=
  apply (exec_runs 30 _ script); vm_compute; reflexivity.


Lemma connect_attempts_and_sleeps_witness :
  length (omap connector_answer Example.two_sleeps_run)
  = S (length (omap sleep_duration Example.two_sleeps_run)) /\
  length (omap logged Example.two_sleeps_run)
  = length (omap sleep_duration Example.two_sleeps_run).
Proof.
  refine (connect_attempts_and_sleeps Example.connectors Example.addr 3000%Z true
            "tcp" Example.loc 1%nat Example.two_sleeps_run (inr 9%nat) _ _ _).
  - reflexivity.
  - reflexivity.
  - run_script Example.two_sleeps_script.
Defined.

Lemma connect_sleeps_and_failures_witness :
  length (omap sleep_duration Example.two_sleeps_run)
    <= length (omap transient Example.two_sleeps_run)
    <= S (length (omap sleep_duration Example.two_sleeps_run)) /\
  (forall comm : Comm,
      (inr 9%nat : exn + Comm) = inr comm ->
      length (omap transient Example.two_sleeps_run)
      = length (omap sleep_duration Example.two_sleeps_run)).
Proof.
  refine (connect_sleeps_and_failures Example.connectors Example.addr 3000%Z true
            "tcp" Example.loc 1%nat Example.two_sleeps_run (inr 9%nat) _ _ _).
  - reflexivity.
  - reflexivity.
  - run_script Example.two_sleeps_script.
Defined.

Lemma connect_sleeps_before_deadline_witness :
  (10%Z : seconds) = sec_literal 0.01 /\
  exists start pre' c e now ans rest,
    head Example.retry_run = Some (CallTime start) /\
    take 3 Example.retry_run = pre' ++ [c; CallTime now] /\
    raised c = Some e /\ isinstance_EnvironmentError e = true /\
    sec_ltb now (sec_add start 3000%Z) = true /\
    drop 4 Example.retry_run
    = CallLoggerDebug "sleeping on connect"
      :: CallConnect 1%nat Example.loc true ans :: rest.
Proof.
  refine (connect_sleeps_before_deadline Example.connectors Example.addr 3000%Z true
            "tcp" Example.loc 1%nat Example.retry_run (inr 9%nat)
            (take 3 Example.retry_run) 10%Z (drop 4 Example.retry_run) _ _ _ _).
  - reflexivity.
  - reflexivity.
  - run_script [AnsTime 0%Z; AnsFuture (inl Example.refused); AnsTime 5%Z; AnsUnit;
                AnsUnit; AnsFuture (inr 4%nat); AnsTime 20%Z; AnsComm (inr 9%nat)].
  - reflexivity.
Defined.

Lemma connect_calls_witness :
  Forall (connect_call 1%nat Example.loc true) Example.two_waits_run.
Proof.
  refine (connect_calls Example.connectors Example.addr 3000%Z true
            "tcp" Example.loc 1%nat Example.two_waits_run (inr 9%nat) _ _ _).
  - reflexivity.
  - reflexivity.
  - run_script [AnsTime 0%Z; AnsFuture (inr 4%nat); AnsTime 1%Z;
                AnsComm (inl Example.refused); AnsTime 6%Z; AnsUnit; AnsUnit;
                AnsFuture (inr 5%nat); AnsTime 17%Z; AnsComm (inr 9%nat)].
Defined.

Lemma connect_sleeps_bounded_witness :
  exists start,
    head Example.two_sleeps_run = Some (CallTime start) /\
    (inject_Z start + inject_Z (Z.of_nat 1) * 10
     < inject_Z (sec_add start 3000%Z))%Q.
Proof.
  refine (connect_sleeps_bounded Example.connectors Example.addr 3000%Z true
            "tcp" Example.loc 1%nat Example.two_sleeps_run (inr 9%nat)
            inject_Z 10%Q 1%nat _ _ _ _ _ _ _).
  - reflexivity.
  - reflexivity.
  - intros a b Hlt. rewrite <- Zlt_Qlt. by apply Z.ltb_lt.
  - run_script Example.two_sleeps_script.
  - cbn. repeat (constructor;
                 [|repeat (constructor; [unfold Qle; cbn; lia|]); constructor]).
    constructor.
  - intros pre now duration msg c l d ans now' post Heq.
    unfold Example.two_sleeps_run in Heq. find_call pre; unfold Qle; cbn; lia.
  - reflexivity.
Defined.

Lemma connect_succeeds_after_failures_witness :
  runs (connect Example.connectors Example.addr 3000%Z true)
       Example.two_sleeps_run (inr 9%nat) /\
  length (omap sleep_duration Example.two_sleeps_run) = 2.
Proof.
  refine (connect_succeeds_after_failures Example.connectors Example.addr 3000%Z true
            "tcp" Example.loc 1%nat 0%Z
            [(Refused Example.refused, 2%Z); (Refused Example.refused, 14%Z)]
            4%nat 26%Z 9%nat _ _ _).
  - reflexivity.
  - reflexivity.
  - repeat constructor.
Defined.

Lemma connect_times_out_after_failures_witness :
  runs (connect Example.connectors Example.addr 50%Z true) Example.late_run
       (inl (Raise IOError
               "Timed out trying to connect to 'tcp://10.0.0.7:8786' after 50e-3 s: [Errno 111] Connection refused")).
Proof.
  refine (connect_times_out_after_failures Example.connectors Example.addr 50%Z true
            "tcp" Example.loc 1%nat 0%Z [] (Refused Example.refused) 60%Z
            _ _ _ _ _).
  - reflexivity.
  - reflexivity.
  - constructor.
  - reflexivity.
  - reflexivity.
Defined.

End MoreExamples.

(** * What connect does after a failed attempt *)

Section AfterFailure.
Context `{Platform}.
Context (connectors : gmap string Connector).

(** [connect] gets through any series of retried failures, and then goes on
    as the loop does with the text of the last of them in [error]. *)
Lemma connect_after_failures addr timeout deserialize scheme loc connector
    start fails tr r :
  parse_address addr = inr (scheme, loc) ->
  connectors !! scheme = Some connector ->
  Forall (fun fn => isinstance_EnvironmentError (failure_exn fn.1) = true /\
                    sec_ltb fn.2 (sec_add start timeout) = true) fails ->
  runs (retry_loop addr timeout deserialize connector loc (sec_add start timeout)
          match last fails with
          | Some fn => Some (exn_str (failure_exn fn.1))
          | None => None
          end) tr r ->
  runs (connect connectors addr timeout deserialize)
       (CallTime start
        :: flat_map (retried_pass connector loc deserialize (sec_add start timeout))
             fails ++ tr) r.
Proof.
  intros Hparse Hreg Hfails Hr.
  apply (runs_connect _ _ _ _ _ _ _ _ _ Hparse Hreg). eexists _, _.
  split; [reflexivity|].
  apply retry_loop_retries; [exact Hfails|].
  by rewrite last_error_retried.
Qed.

(** C1: when a connection attempt of [connect] raises an error of the
    [EnvironmentError] class, the clock is read next.  If the reading is
    strictly before the deadline (the first reading plus [timeout]),
    [connect] sleeps [0.01] s, logs, and goes round the loop again with the
    text of that error as its last error, which starts with a new connector
    call; otherwise the run ends there with the timeout error built from that
    text.  The first part says so of every run; the second part says that
    [connect] does go on this way, whatever failures it retried before: at
    the deadline the run that ends with the timeout error exists, and before
    it every run of the loop entered with that error's text continues the
    run of [connect] after the sleep and the log line. *)
Theorem connect_retries_transient_error addr timeout deserialize scheme loc connector :
  parse_address addr = inr (scheme, loc) ->
  connectors !! scheme = Some connector ->
  (forall tr r pre c post e,
      runs (connect connectors addr timeout deserialize) tr r ->
      tr = pre ++ c :: post -> raised c = Some e ->
      isinstance_EnvironmentError e = true ->
      exists start now post',
        head tr = Some (CallTime start) /\
        post = CallTime now :: post' /\
        if sec_ltb now (sec_add start timeout) then
          exists ans rest,
            post' = CallSleep (sec_literal 0.01)
                    :: CallLoggerDebug "sleeping on connect"
                    :: CallConnect connector loc deserialize ans :: rest /\
            runs (retry_loop addr timeout deserialize connector loc
                    (sec_add start timeout) (Some (exn_str e)))
                 (CallConnect connector loc deserialize ans :: rest) r
        else post' = [] /\ r = inl (_raise addr timeout (Some (exn_str e)))) /\
  (forall start fails f now,
      let deadline := sec_add start timeout in
      let history :=
        CallTime start
        :: flat_map (retried_pass connector loc deserialize deadline) fails
        ++ failed_try connector loc deserialize deadline f in
      Forall (fun fn => isinstance_EnvironmentError (failure_exn fn.1) = true /\
                        sec_ltb fn.2 deadline = true) fails ->
      isinstance_EnvironmentError (failure_exn f) = true ->
      if sec_ltb now deadline then
        forall tr r,
          runs (retry_loop addr timeout deserialize connector loc deadline
                  (Some (exn_str (failure_exn f)))) tr r ->
          runs (connect connectors addr timeout deserialize)
               (history ++ [CallTime now; CallSleep (sec_literal 0.01);
                            CallLoggerDebug "sleeping on connect"] ++ tr) r
      else
        runs (connect connectors addr timeout deserialize)
             (history ++ [CallTime now])
             (inl (Raise IOError
                     ("Timed out trying to connect to " +:+ repr_str addr
                      +:+ " after " +:+ str_seconds timeout +:+ " s: "
                      +:+ match exn_str (failure_exn f) with
                          | "" => "connect() didn't finish in time"
                          | text => text
                          end)))).
Proof.
  intros Hparse Hreg. split.
  - intros tr r pre c post e Hr Heq Hc Henv.
    destruct (connect_after_raise _ _ _ _ _ _ _ _ _ _ _ _ _ Hparse Hreg Hr Heq Hc)
      as (start & Hhead & Hafter).
    unfold after_raise in Hafter. rewrite Henv in Hafter.
    destruct Hafter as (now & post' & -> & Hafter).
    exists start, now, post'. split; [done|]. split; [done|].
    destruct (sec_ltb now (sec_add start timeout)); [|done].
    destruct Hafter as (rest & -> & Hloop).
    destruct (retry_loop_head _ _ _ _ _ _ _ _ _ Hloop) as (ans & rest' & ->).
    by exists ans, rest'.
  - intros start fails f now deadline history Hfails Henv.
    destruct (sec_ltb now deadline) eqn:Hlt.
    + intros tr r Hloop.
      replace (history ++ [CallTime now; CallSleep (sec_literal 0.01);
                           CallLoggerDebug "sleeping on connect"] ++ tr)
        with (CallTime start
              :: flat_map (retried_pass connector loc deserialize deadline)
                   (fails ++ [(f, now)]) ++ tr).
      * apply (connect_after_failures _ _ _ _ _ _ _ _ _ _ Hparse Hreg).
        -- apply Forall_app. split; [exact Hfails|]. by repeat constructor.
        -- by rewrite last_snoc.
      * unfold history, retried_pass. rewrite flat_map_app. cbn.
        by rewrite app_nil_r, <- !(assoc_L (++)).
    + unfold history. cbn [app]. rewrite <- (assoc_L (++)).
      apply (connect_after_failures _ _ _ _ _ _ _ _ _ _ Hparse Hreg Hfails).
      pose proof (retry_loop_gives_up addr timeout deserialize connector loc
                    deadline
                    match last fails with
                    | Some fn => Some (exn_str (failure_exn fn.1))
                    | None => None
                    end f now Henv Hlt) as Hloop.
      unfold _raise in Hloop. by destruct (exn_str (failure_exn f)).
Qed.

(** C5: when a connection attempt of [connect] ends with tornado's timeout
    error (and not with an error of the [EnvironmentError] class), the run
    ends there with the timeout error built from the last error recorded
    before the attempt: its message ends with that error's text, or with the
    fixed text if none was recorded, as on the first attempt.  The first part
    says so of every run; the second part says that [connect] does end that
    way, whatever failures it retried before. *)
Theorem connect_attempt_times_out addr timeout deserialize scheme loc connector :
  parse_address addr = inr (scheme, loc) ->
  connectors !! scheme = Some connector ->
  (forall tr r pre c post e,
      runs (connect connectors addr timeout deserialize) tr r ->
      tr = pre ++ c :: post -> raised c = Some e ->
      isinstance_EnvironmentError e = false -> isinstance_TimeoutError e = true ->
      post = [] /\
      r = inl (_raise addr timeout (last_error None pre)) /\
      r = inl (Raise IOError
                 ("Timed out trying to connect to " +:+ repr_str addr +:+ " after "
                  +:+ str_seconds timeout +:+ " s: "
                  +:+ match last (omap transient pre) with
                      | Some "" | None => "connect() didn't finish in time"
                      | Some text => text
                      end)) /\
      (omap transient pre = [] ->
       r = inl (Raise IOError
                  ("Timed out trying to connect to " +:+ repr_str addr +:+ " after "
                   +:+ str_seconds timeout
                   +:+ " s: connect() didn't finish in time")))) /\
  (forall start fails f,
      let deadline := sec_add start timeout in
      Forall (fun fn => isinstance_EnvironmentError (failure_exn fn.1) = true /\
                        sec_ltb fn.2 deadline = true) fails ->
      isinstance_EnvironmentError (failure_exn f) = false ->
      isinstance_TimeoutError (failure_exn f) = true ->
      runs (connect connectors addr timeout deserialize)
           (CallTime start
            :: flat_map (retried_pass connector loc deserialize deadline) fails
            ++ failed_try connector loc deserialize deadline f)
           (inl (Raise IOError
                   ("Timed out trying to connect to " +:+ repr_str addr +:+ " after "
                    +:+ str_seconds timeout +:+ " s: "
                    +:+ match last fails with
                        | Some fn =>
                            match exn_str (failure_exn fn.1) with
                            | "" => "connect() didn't finish in time"
                            | text => text
                            end
                        | None => "connect() didn't finish in time"
                        end)))).
Proof.
  intros Hparse Hreg. split.
  - intros tr r pre c post e Hr Heq Hc Henv Hto.
    destruct (connect_after_raise _ _ _ _ _ _ _ _ _ _ _ _ _ Hparse Hreg Hr Heq Hc)
      as (start & Hhead & Hafter).
    unfold after_raise in Hafter. rewrite Henv, Hto in Hafter.
    destruct Hafter as [-> ->]. split; [done|]. split; [done|]. split.
    + unfold _raise, last_error. by destruct (last (omap transient pre)) as [[]|].
    + intros Hnone. unfold last_error. by rewrite Hnone.
  - intros start fails f deadline Hfails Henv Hto.
    pose proof (retry_loop_raises addr timeout deserialize connector loc deadline
                  match last fails with
                  | Some fn => Some (exn_str (failure_exn fn.1))
                  | None => None
                  end f Henv) as Hloop.
    rewrite Hto in Hloop.
    apply (connect_after_failures _ _ _ _ _ _ _ _ _ _ Hparse Hreg Hfails) in Hloop.
    unfold _raise in Hloop.
    by destruct (last fails) as [fn|]; [destruct (exn_str (failure_exn fn.1))|].
Qed.


End AfterFailure.

(** * The theorems on failed attempts, on concrete runs *)

Section AfterFailureExamples.
#[local] Existing Instance Example.platform.

Ltac replay script :=
  apply (exec_runs 30 _ script); vm_compute; reflexivity.

(** A retried refusal in a run that connects; a refusal at the deadline
    (timeout 50 ms); and two refusals retried before the third attempt
    connects. *)
Lemma connect_retries_transient_error_witness :
  (exists start now post',
      head Example.retry_run = Some (CallTime start) /\
      drop 2 Example.retry_run = CallTime now :: post' /\
      if sec_ltb now (sec_add start 3000%Z) then
        exists ans rest,
          post' = CallSleep (sec_literal 0.01)
                  :: CallLoggerDebug "sleeping on connect"
                  :: CallConnect 1%nat Example.loc true ans :: rest /\
          runs (retry_loop Example.addr 3000%Z true 1%nat Example.loc
                  (sec_add start 3000%Z) (Some (exn_str Example.refused)))
               (CallConnect 1%nat Example.loc true ans :: rest) (inr 9%nat)
      else post' = [] /\
           inr 9%nat
           = inl (@_raise Example.platform Example.addr 3000%Z
                    (Some (exn_str Example.refused)))) /\
  runs (connect Example.connectors Example.addr 50%Z true) Example.late_run
       (inl (Raise IOError
               "Timed out trying to connect to 'tcp://10.0.0.7:8786' after 50e-3 s: [Errno 111] Connection refused")) /\
  runs (connect Example.connectors Example.addr 3000%Z true)
       Example.two_sleeps_run (inr 9%nat).
Proof.
  destruct (@connect_retries_transient_error Example.platform Example.connectors
              Example.addr 3000%Z true "tcp" Example.loc 1%nat eq_refl eq_refl)
    as [Hevery Hgoes].
  destruct (@connect_retries_transient_error Example.platform Example.connectors
              Example.addr 50%Z true "tcp" Example.loc 1%nat eq_refl eq_refl)
    as [_ Hlate].
  split; [|split].
  - refine (Hevery Example.retry_run (inr 9%nat)
              [CallTime 0%Z] (CallConnect 1%nat Example.loc true (inl Example.refused))
              (drop 2 Example.retry_run) Example.refused _ _ _ _).
    + replay [AnsTime 0%Z; AnsFuture (inl Example.refused); AnsTime 5%Z; AnsUnit;
              AnsUnit; AnsFuture (inr 4%nat); AnsTime 20%Z; AnsComm (inr 9%nat)].
    + reflexivity.
    + reflexivity.
    + reflexivity.
  - refine (Hlate 0%Z [] (Refused Example.refused) 60%Z _ _).
    + constructor.
    + reflexivity.
  - refine (Hgoes 0%Z [(Refused Example.refused, 2%Z)] (Refused Example.refused) 14%Z
              _ _
              [CallConnect 1%nat Example.loc true (inr 4%nat); CallTime 26%Z;
               CallWithTimeout 2974%Z 4%nat (inr 9%nat)]
              (inr 9%nat) _).
    + repeat constructor.
    + reflexivity.
    + replay [AnsFuture (inr 4%nat); AnsTime 26%Z; AnsComm (inr 9%nat)].
Defined.

(** A wait that times out on the first attempt, and one that times out after
    a retried refusal, whose text the message then carries. *)
Lemma connect_attempt_times_out_witness :
  let first : exn + Comm :=
    inl (Raise IOError
           "Timed out trying to connect to 'tcp://10.0.0.7:8786' after 3000e-3 s: connect() didn't finish in time") in
  let later : exn + Comm :=
    inl (Raise IOError
           "Timed out trying to connect to 'tcp://10.0.0.7:8786' after 3000e-3 s: [Errno 111] Connection refused") in
  (@nil call = [] /\
   first = inl (@_raise Example.platform Example.addr 3000%Z
                  (last_error None (take 3 Example.timeout_run)))) /\
  (@nil call = [] /\
   later = inl (@_raise Example.platform Example.addr 3000%Z
                  (last_error None (take 7 Example.refused_then_timeout_run)))) /\
  runs (connect Example.connectors Example.addr 3000%Z true)
       Example.timeout_run first /\
  runs (connect Example.connectors Example.addr 3000%Z true)
       Example.refused_then_timeout_run later.
Proof.
  intros first later.
  destruct (@connect_attempt_times_out Example.platform Example.connectors
              Example.addr 3000%Z true "tcp" Example.loc 1%nat eq_refl eq_refl)
    as [Hevery Hgoes].
  assert (Hfirst : runs (connect Example.connectors Example.addr 3000%Z true)
                        Example.timeout_run first).
  { refine (Hgoes 0%Z [] (Broken 4%nat 1%Z Example.timed_out) _ _ _).
    - constructor.
    - reflexivity.
    - reflexivity. }
  assert (Hlater : runs (connect Example.connectors Example.addr 3000%Z true)
                        Example.refused_then_timeout_run later).
  { refine (Hgoes 0%Z [(Refused Example.refused, 5%Z)]
              (Broken 4%nat 20%Z Example.timed_out) _ _ _).
    - repeat constructor.
    - reflexivity.
    - reflexivity. }
  split; [|split; [|split; [exact Hfirst | exact Hlater]]].
  - refine (match Hevery Example.timeout_run first (take 3 Example.timeout_run)
                    (CallWithTimeout 2999%Z 4%nat (inl Example.timed_out)) []
                    Example.timed_out Hfirst eq_refl eq_refl eq_refl eq_refl
            with
            | conj Hpost (conj Hr _) => conj Hpost Hr
            end).
  - refine (match Hevery Example.refused_then_timeout_run later
                    (take 7 Example.refused_then_timeout_run)
                    (CallWithTimeout 2980%Z 4%nat (inl Example.timed_out)) []
                    Example.timed_out Hlater eq_refl eq_refl eq_refl eq_refl
            with
            | conj Hpost (conj Hr _) => conj Hpost Hr
            end).
Defined.


End AfterFailureExamples.
